(** * Visual-FX: particle field engine and carousel controller

    A shallow embedding of [js/particles.js] and [js/carousel.js].

    JavaScript numbers are modelled by the real numbers [R] where the code
    computes with coordinates, speeds and opacities, and by [Z] where it
    computes with array indices.  [Math.random] is an explicit source of
    draws threaded through the code that consumes it.  The canvas context and
    the DOM are modelled by the data the code writes to them: the list of
    strokes issued by [connectParticles], the [translateX] of the carousel
    track and the list of transitions in flight. *)

From Stdlib Require Import Reals Lra Lia ZArith List Bool.
Import ListNotations.

(** ** Comparisons on numbers, as booleans *)

Module Num.
Open Scope R_scope.

Definition ltb (a b : R) : bool := if Rlt_dec a b then true else false.
Definition gtb (a b : R) : bool := ltb b a.
Definition eqb (a b : R) : bool := if Req_dec_T a b then true else false.

(** [Math.atan2(y, x)] on finite arguments, signed zeros apart. *)
Definition atan2 (y x : R) : R :=
  if ltb 0 x then atan (y / x)
  else if ltb x 0 then (if ltb y 0 then atan (y / x) - PI else atan (y / x) + PI)
  else if ltb 0 y then PI / 2
  else if ltb y 0 then - PI / 2
  else 0.

(** How a call ends: it returns, or it throws and leaves the state it had
    reached. *)
Inductive Outcome (A : Type) : Type :=
| Returned (a : A)
| Threw (a : A).

Arguments Returned {A} a.
Arguments Threw {A} a.

Definition outcome {A : Type} (o : Outcome A) : A :=
  match o with
  | Returned a => a
  | Threw a => a
  end.

Definition threw {A : Type} (o : Outcome A) : bool :=
  match o with
  | Returned _ => false
  | Threw _ => true
  end.

End Num.

(** ** The particle field: [js/particles.js] *)

Module Particles.
Import Num.
Open Scope R_scope.

(** The [config] object. *)
Record Config : Type := mkConfig {
  particleCount : Z;
  particleSize : R;
  particleSpeed : R;
  connectionDistance : R;
  mouseRadius : R;
  mouseForce : R
}.

Definition config : Config :=
  {| particleCount := 100;
     particleSize := 2;
     particleSpeed := 5 / 10;
     connectionDistance := 120;
     mouseRadius := 150;
     mouseForce := 5 / 10 |}.

(** The [mouse] object: both coordinates are [null] until the pointer enters
    the canvas and after it leaves. *)
Record Mouse : Type := mkMouse {
  mouse_x : option R;
  mouse_y : option R;
  radius : R
}.

Definition mouse (cfg : Config) : Mouse :=
  {| mouse_x := None; mouse_y := None; radius := mouseRadius cfg |}.

Definition mousemove (mx my : R) (m : Mouse) : Mouse :=
  {| mouse_x := Some mx; mouse_y := Some my; radius := radius m |}.

Definition mouseleave (m : Mouse) : Mouse :=
  {| mouse_x := None; mouse_y := None; radius := radius m |}.

(** [canvas.width] and [canvas.height]. *)
Record Canvas : Type := mkCanvas {
  width : R;
  height : R
}.

(** The source of [Math.random()]: a sequence of draws and the position of
    the next one. *)
Record Random : Type := mkRandom {
  draws : nat -> R;
  cursor : nat
}.

Definition random (g : Random) : R * Random :=
  (draws g (cursor g), {| draws := draws g; cursor := S (cursor g) |}).

(** Every draw of [Math.random()] is in [0, 1). *)
Definition unit_draws (g : Random) : Prop :=
  forall n, 0 <= draws g n < 1.

Record Particle : Type := mkParticle {
  x : R;
  y : R;
  vx : R;
  vy : R;
  size : R;
  opacity : R
}.

(** [new Particle()]: six draws, in the order of the constructor. *)
Definition newParticle (cfg : Config) (cv : Canvas) (g : Random) : Particle * Random :=
  let '(r1, g1) := random g in
  let '(r2, g2) := random g1 in
  let '(r3, g3) := random g2 in
  let '(r4, g4) := random g3 in
  let '(r5, g5) := random g4 in
  let '(r6, g6) := random g5 in
  ({| x := r1 * width cv;
      y := r2 * height cv;
      vx := (r3 - 5 / 10) * particleSpeed cfg;
      vy := (r4 - 5 / 10) * particleSpeed cfg;
      size := particleSize cfg * (8 / 10 + r5 * (4 / 10));
      opacity := 3 / 10 + r6 * (7 / 10) |}, g6).

(** The edge test and bounce of one axis:
    [if (pos < 0 || pos > limit) { v *= -1; v += (Math.random() - 0.5) * 0.1; }] *)
Definition bounce (pos limit v : R) (g : Random) : R * Random :=
  if ltb pos 0 || gtb pos limit
  then let '(r, g') := random g in (v * -1 + (r - 5 / 10) * (1 / 10), g')
  else (v, g).

(** [Math.max(-maxSpeed, Math.min(maxSpeed, v))] *)
Definition clampSpeed (maxSpeed v : R) : R :=
  Rmax (- maxSpeed) (Rmin maxSpeed v).

(** The mouse interaction at the end of [update], on the position already
    moved and the velocity already clamped. *)
Definition mouseInteraction (cfg : Config) (m : Mouse) (px py v_x v_y : R) : R * R :=
  match mouse_x m, mouse_y m with
  | Some mx, Some my =>
      let dx := mx - px in
      let dy := my - py in
      let distance := sqrt (dx * dx + dy * dy) in
      if ltb distance (radius m)
      then
        let force := (radius m - distance) / radius m in
        let angle := atan2 dy dx in
        (v_x - cos angle * force * mouseForce cfg,
         v_y - sin angle * force * mouseForce cfg)
      else (v_x, v_y)
  | _, _ => (v_x, v_y)
  end.

(** [Particle.update()] *)
Definition update (cfg : Config) (cv : Canvas) (m : Mouse) (p : Particle) (g : Random)
  : Particle * Random :=
  let x1 := x p + vx p in
  let y1 := y p + vy p in
  let '(vx1, g1) := bounce x1 (width cv) (vx p) g in
  let '(vy1, g2) := bounce y1 (height cv) (vy p) g1 in
  let maxSpeed := particleSpeed cfg * 2 in
  let vx2 := clampSpeed maxSpeed vx1 in
  let vy2 := clampSpeed maxSpeed vy1 in
  let '(vx3, vy3) := mouseInteraction cfg m x1 y1 vx2 vy2 in
  ({| x := x1; y := y1; vx := vx3; vy := vy3; size := size p; opacity := opacity p |}, g2).

(** The update half of [animate]: [particles.forEach(p => p.update())]. *)
Fixpoint step (cfg : Config) (cv : Canvas) (m : Mouse) (ps : list Particle) (g : Random)
  : list Particle * Random :=
  match ps with
  | [] => ([], g)
  | p :: rest =>
      let '(p', g1) := update cfg cv m p g in
      let '(rest', g2) := step cfg cv m rest g1 in
      (p' :: rest', g2)
  end.

(** [n] frames; the mouse of frame [k] is [ms k]. *)
Fixpoint steps (cfg : Config) (cv : Canvas) (ms : nat -> Mouse) (n : nat)
  (ps : list Particle) (g : Random) : list Particle * Random :=
  match n with
  | O => (ps, g)
  | S k =>
      let '(ps1, g1) := steps cfg cv ms k ps g in
      step cfg cv (ms k) ps1 g1
  end.

(** What [connectParticles] draws: one stroke per [ctx.stroke()]. *)
Inductive StrokeStyle : Type := connection | mouseConnection.

Record Stroke : Type := mkStroke {
  strokeStyle : StrokeStyle;
  globalAlpha : R;
  lineWidth : R;
  moveTo : R * R;
  lineTo : R * R
}.

(** The distance both loops compute: [Math.sqrt(dx * dx + dy * dy)]. *)
Definition distance (ax ay bx b_y : R) : R :=
  let dx := ax - bx in
  let dy := ay - b_y in
  sqrt (dx * dx + dy * dy).

(** The inner loop, [for (j = i + 1; ...)], of particle [p] against the
    particles after it. *)
Fixpoint connectPairs (cfg : Config) (p : Particle) (rest : list Particle) : list Stroke :=
  match rest with
  | [] => []
  | q :: rest' =>
      let d := distance (x p) (y p) (x q) (y q) in
      if ltb d (connectionDistance cfg)
      then
        let opacity := 1 - d / connectionDistance cfg in
        {| strokeStyle := connection;
           globalAlpha := opacity * (5 / 10);
           lineWidth := 1;
           moveTo := (x p, y p);
           lineTo := (x q, y q) |} :: connectPairs cfg p rest'
      else connectPairs cfg p rest'
  end.

(** The mouse segment of particle [p]. *)
Definition connectMouse (m : Mouse) (p : Particle) : list Stroke :=
  match mouse_x m, mouse_y m with
  | Some mx, Some my =>
      let d := distance (x p) (y p) mx my in
      if ltb d (radius m)
      then
        let opacity := 1 - d / radius m in
        [{| strokeStyle := mouseConnection;
            globalAlpha := opacity;
            lineWidth := 2;
            moveTo := (x p, y p);
            lineTo := (mx, my) |}]
      else []
  | _, _ => []
  end.

(** [connectParticles()] *)
Fixpoint connectParticles (cfg : Config) (m : Mouse) (ps : list Particle) : list Stroke :=
  match ps with
  | [] => []
  | p :: rest =>
      connectPairs cfg p rest ++ connectMouse m p ++ connectParticles cfg m rest
  end.

(** *** Inputs of the examples, and names for what the code computes *)

(** The concrete inputs of the examples: a 100 x 100 canvas and a source
    of draws that is 1/1000, 1/2, 1/10, then 1/2 for ever. *)
Definition canvas0 : Canvas := {| width := 100; height := 100 |}.

Definition draws0 (n : nat) : R :=
  match n with
  | 0%nat => 1 / 1000
  | 2%nat => 1 / 10
  | _ => 1 / 2
  end.

Definition random0 : Random := {| draws := draws0; cursor := 0 |}.

Definition in_bounds (cv : Canvas) (p : Particle) : Prop :=
  0 <= x p <= width cv /\ 0 <= y p <= height cv.

(** The second example: a particle made at the centre of the canvas, moving
    left at 0.2 per frame, and a pointer that stays one pixel to its right
    for two frames. *)
Definition draws1 (n : nat) : R :=
  match n with
  | 2%nat => 1 / 10
  | _ => 1 / 2
  end.

Definition random1 : Random := {| draws := draws1; cursor := 0 |}.

Definition mouse1 (k : nat) : Mouse :=
  match k with
  | 0%nat => mousemove (508 / 10) 50 (mouse config)
  | _ => mousemove (15031 / 300) 50 (mouse config)
  end.

(** The stroke [connectParticles] issues for a pair of particles [d] apart. *)
Definition pairStroke (cfg : Config) (p q : Particle) : Stroke :=
  let d := distance (x p) (y p) (x q) (y q) in
  {| strokeStyle := connection;
     globalAlpha := (1 - d / connectionDistance cfg) * (5 / 10);
     lineWidth := 1;
     moveTo := (x p, y p);
     lineTo := (x q, y q) |}.

(** Two particles 60 apart on the top edge of the canvas. *)
Definition particleA : Particle :=
  {| x := 0; y := 0; vx := 0; vy := 0; size := 2; opacity := 1 / 2 |}.

Definition particleB : Particle :=
  {| x := 60; y := 0; vx := 0; vy := 0; size := 2; opacity := 1 / 2 |}.

(** *** The rest of the particle field: construction of the collection,
    resizing, and the drawing of a frame *)

(** The loop of [initParticles()], [n] iterations left. *)
Fixpoint pushParticles (n : nat) (cfg : Config) (cv : Canvas) (g : Random)
  : list Particle * Random :=
  match n with
  | O => ([], g)
  | S k =>
      let '(p, g1) := newParticle cfg cv g in
      let '(ps, g2) := pushParticles k cfg cv g1 in
      (p :: ps, g2)
  end.

(** [initParticles()]: the loop [for (i = 0; i < config.particleCount; i++)]
    runs [particleCount] times, and not at all for a count of 0 or less.
    [classReady] tells whether the evaluation of the script has reached
    [class Particle] (line 77): until then the name is in its temporal dead
    zone and the first [new Particle()] throws a ReferenceError, after
    [particles = []] and before any draw. *)
Definition initParticles (classReady : bool) (cfg : Config) (cv : Canvas) (g : Random)
  : Outcome (list Particle * Random) :=
  let n := Z.to_nat (particleCount cfg) in
  if (0 <? n)%nat && negb classReady
  then Threw ([], g)
  else Returned (pushParticles n cfg cv g).

Definition set_particleCount (n : Z) (cfg : Config) : Config :=
  {| particleCount := n;
     particleSize := particleSize cfg;
     particleSpeed := particleSpeed cfg;
     connectionDistance := connectionDistance cfg;
     mouseRadius := mouseRadius cfg;
     mouseForce := mouseForce cfg |}.

(** What [canvas.getBoundingClientRect()] gives [resizeCanvas]. *)
Record Rect : Type := mkRect {
  rect_width : R;
  rect_height : R
}.

(** The canvas, the configuration and the collection, as [resizeCanvas]
    leaves them. *)
Record Field : Type := mkField {
  field_canvas : Canvas;
  field_config : Config;
  field_particles : list Particle
}.

(** The conversion of a number to an IDL [unsigned long], which the setters
    of [canvas.width] and [canvas.height] apply: the fraction is dropped,
    towards zero, and the integer is taken modulo 2^32. *)
Definition toUnsignedLong (v : R) : Z :=
  ((if ltb v 0 then - Zfloor (- v) else Zfloor v) mod 2 ^ 32)%Z.

(** [canvas.width = v] followed by a read of [canvas.width]: the attribute
    reflects an [unsigned long] with a default, so a value above 2^31 - 1 is
    replaced by the default (300 for the width, 150 for the height). *)
Definition reflectDimension (dflt : Z) (v : R) : Z :=
  let n := toUnsignedLong v in
  if (2147483647 <? n)%Z then dflt else n.

(** Double-precision arithmetic, as far as [resizeCanvas] depends on it.
    The result of an operation is its exact result rounded, [rnd]; rounding
    keeps 0, and on the range the quantities of [resizeCanvas] stay in its
    relative error is below 1/10000 (it is 2^-53 for the arithmetic
    operations, and small for the approximation [Math.sqrt] may return). *)
Definition accurate (rnd : R -> R) : Prop :=
  rnd 0 = 0 /\
  forall v, 1 / 1000000000000 <= v <= 1000000000000000000000000000000 ->
            Rabs (rnd v - v) <= v / 10000.

(** Arithmetic without rounding error. *)
Definition exact (v : R) : R := v.

(** [resizeCanvas()] under the rounding [rnd]; [Math.floor] is [Zfloor], and
    the product 1920 * 1080 is exact.  The script calls it once while it is
    evaluated (line 71, [classReady = false]) and then from the resize
    listener. *)
Definition resizeCanvas (rnd : R -> R) (classReady : bool) (rect : Rect) (cfg : Config)
  (g : Random) : Outcome (Field * Random) :=
  let cv := {| width := IZR (reflectDimension 300 (rect_width rect));
               height := IZR (reflectDimension 150 (rect_height rect)) |} in
  let area := rnd (width cv * height cv) in
  let baseArea := 1920 * 1080 in
  let scaleFactor := rnd (sqrt (rnd (area / baseArea))) in
  let cfg1 := set_particleCount (Zfloor (rnd (100 * scaleFactor))) cfg in
  match initParticles classReady cfg1 cv g with
  | Returned (ps, g1) =>
      Returned ({| field_canvas := cv; field_config := cfg1; field_particles := ps |}, g1)
  | Threw (ps, g1) =>
      Threw ({| field_canvas := cv; field_config := cfg1; field_particles := ps |}, g1)
  end.

(** The number [resizeCanvas] takes the floor of, for a canvas of [w] by [h]
    pixels. *)
Definition scaledCount (rnd : R -> R) (w h : Z) : R :=
  rnd (100 * rnd (sqrt (rnd (rnd (IZR w * IZR h) / (1920 * 1080))))).

(** What [Particle.draw()] fills: [ctx.arc(x, y, size, 0, 2 PI)] under
    [ctx.globalAlpha = opacity]. *)
Record Arc : Type := mkArc {
  arc_x : R;
  arc_y : R;
  arc_radius : R;
  arc_alpha : R
}.

Definition draw (p : Particle) : Arc :=
  {| arc_x := x p; arc_y := y p; arc_radius := size p; arc_alpha := opacity p |}.

(** What one call of [animate()] leaves: the collection and the source of
    draws, the circles filled and the strokes issued.  Each particle is drawn
    right after its own update, which reads no other particle. *)
Record Frame : Type := mkFrame {
  frame_particles : list Particle;
  frame_random : Random;
  frame_arcs : list Arc;
  frame_strokes : list Stroke
}.

(** [animate()], up to the request of the next frame. *)
Definition animate (cfg : Config) (cv : Canvas) (m : Mouse) (ps : list Particle)
  (g : Random) : Frame :=
  let '(ps1, g1) := step cfg cv m ps g in
  {| frame_particles := ps1;
     frame_random := g1;
     frame_arcs := map draw ps1;
     frame_strokes := connectParticles cfg m ps1 |}.

(** Whether a coordinate is off the canvas, as the edge test has it. *)
Definition outside (pos limit : R) : bool := ltb pos 0 || gtb pos limit.

(** Whether a stroke is a pointer segment. *)
Definition isPointerStroke (s : Stroke) : bool :=
  match strokeStyle s with
  | mouseConnection => true
  | connection => false
  end.

(** Whether a particle is closer to the point (mx, my) than [r], as the
    pointer test of [connectParticles] has it. *)
Definition nearPointer (mx my r : R) (p : Particle) : bool :=
  ltb (distance (x p) (y p) mx my) r.

(** The stroke [connectParticles] issues from a particle to the pointer. *)
Definition mouseStroke (mx my r : R) (p : Particle) : Stroke :=
  let d := distance (x p) (y p) mx my in
  {| strokeStyle := mouseConnection;
     globalAlpha := 1 - d / r;
     lineWidth := 2;
     moveTo := (x p, y p);
     lineTo := (mx, my) |}.

End Particles.

(** ** The carousel controller: [js/carousel.js] *)

Module Carousel.
Import Num.
Open Scope R_scope.

(** [carouselConfig] *)
Record Config : Type := mkConfig {
  itemWidth : R;
  itemGap : R;
  transitionDuration : R;
  autoplay : bool;
  autoplayDelay : R;
  loop : bool;
  dragEnabled : bool;
  dragThreshold : R
}.

Definition carouselConfig : Config :=
  {| itemWidth := 320;
     itemGap := 32;
     transitionDuration := 600;
     autoplay := false;
     autoplayDelay := 5000;
     loop := true;
     dragEnabled := true;
     dragThreshold := 50 |}.

(** A transition started by [track.animate]: its two keyframes.  Its
    [onfinish] handler writes [toX] to the track and clears [isAnimating]. *)
Record Animation : Type := mkAnimation {
  fromX : R;
  toX : R
}.

(** The fields of a [Carousel3D] object, followed by what it owns outside
    itself: the [translateX] of the track, the transitions in flight (oldest
    first; all last [transitionDuration]) and the next handle [setInterval]
    will return.  The item classes and styles and the progress bar are only
    ever written, never read back, and are left out. *)
Record Carousel3D : Type := mkCarousel {
  config : Config;
  currentIndex : Z;
  totalItems : nat;
  isAnimating : bool;
  autoplayTimer : option nat;
  isDragging : bool;
  startX : R;
  currentX : R;
  dragDistance : R;
  trackTransform : R;
  pending : list Animation;
  nextTimer : nat
}.

Definition set_currentIndex (i : Z) (c : Carousel3D) : Carousel3D :=
  mkCarousel (config c) i (totalItems c) (isAnimating c) (autoplayTimer c)
    (isDragging c) (startX c) (currentX c) (dragDistance c)
    (trackTransform c) (pending c) (nextTimer c).

Definition set_isAnimating (b : bool) (c : Carousel3D) : Carousel3D :=
  mkCarousel (config c) (currentIndex c) (totalItems c) b (autoplayTimer c)
    (isDragging c) (startX c) (currentX c) (dragDistance c)
    (trackTransform c) (pending c) (nextTimer c).

Definition set_autoplayTimer (t : option nat) (c : Carousel3D) : Carousel3D :=
  mkCarousel (config c) (currentIndex c) (totalItems c) (isAnimating c) t
    (isDragging c) (startX c) (currentX c) (dragDistance c)
    (trackTransform c) (pending c) (nextTimer c).

Definition set_isDragging (b : bool) (c : Carousel3D) : Carousel3D :=
  mkCarousel (config c) (currentIndex c) (totalItems c) (isAnimating c) (autoplayTimer c)
    b (startX c) (currentX c) (dragDistance c)
    (trackTransform c) (pending c) (nextTimer c).

Definition set_startX (v : R) (c : Carousel3D) : Carousel3D :=
  mkCarousel (config c) (currentIndex c) (totalItems c) (isAnimating c) (autoplayTimer c)
    (isDragging c) v (currentX c) (dragDistance c)
    (trackTransform c) (pending c) (nextTimer c).

Definition set_currentX (v : R) (c : Carousel3D) : Carousel3D :=
  mkCarousel (config c) (currentIndex c) (totalItems c) (isAnimating c) (autoplayTimer c)
    (isDragging c) (startX c) v (dragDistance c)
    (trackTransform c) (pending c) (nextTimer c).

Definition set_dragDistance (v : R) (c : Carousel3D) : Carousel3D :=
  mkCarousel (config c) (currentIndex c) (totalItems c) (isAnimating c) (autoplayTimer c)
    (isDragging c) (startX c) (currentX c) v
    (trackTransform c) (pending c) (nextTimer c).

Definition set_trackTransform (v : R) (c : Carousel3D) : Carousel3D :=
  mkCarousel (config c) (currentIndex c) (totalItems c) (isAnimating c) (autoplayTimer c)
    (isDragging c) (startX c) (currentX c) (dragDistance c)
    v (pending c) (nextTimer c).

Definition set_pending (l : list Animation) (c : Carousel3D) : Carousel3D :=
  mkCarousel (config c) (currentIndex c) (totalItems c) (isAnimating c) (autoplayTimer c)
    (isDragging c) (startX c) (currentX c) (dragDistance c)
    (trackTransform c) l (nextTimer c).

Definition set_nextTimer (n : nat) (c : Carousel3D) : Carousel3D :=
  mkCarousel (config c) (currentIndex c) (totalItems c) (isAnimating c) (autoplayTimer c)
    (isDragging c) (startX c) (currentX c) (dragDistance c)
    (trackTransform c) (pending c) n.

(** [stopAutoplay()] *)
Definition stopAutoplay (c : Carousel3D) : Carousel3D :=
  match autoplayTimer c with
  | Some _ => set_autoplayTimer None c
  | None => c
  end.

(** [startAutoplay()]: clears the timer and takes a fresh interval handle. *)
Definition startAutoplay (c : Carousel3D) : Carousel3D :=
  let c1 := stopAutoplay c in
  set_nextTimer (S (nextTimer c1)) (set_autoplayTimer (Some (nextTimer c1)) c1).

(** [resetAutoplay()] *)
Definition resetAutoplay (c : Carousel3D) : Carousel3D :=
  if autoplay (config c) then startAutoplay c else c.

(** [-this.currentIndex * (this.config.itemWidth + this.config.itemGap)] *)
Definition offset (c : Carousel3D) : R :=
  - IZR (currentIndex c) * (itemWidth (config c) + itemGap (config c)).

(** [updateCarousel(animate)] *)
Definition updateCarousel (animate : bool) (c : Carousel3D) : Carousel3D :=
  if animate
  then
    let c1 := set_isAnimating true c in
    set_pending (pending c1 ++ [ {| fromX := trackTransform c1; toX := offset c1 |} ]) c1
  else set_trackTransform (offset c) c.

(** The [onfinish] handler of the oldest transition in flight. *)
Definition onfinish (c : Carousel3D) : Carousel3D :=
  match pending c with
  | [] => c
  | a :: rest =>
      set_pending rest (set_isAnimating false (set_trackTransform (toX a) c))
  end.

(** [prev()] *)
Definition prev (c : Carousel3D) : Carousel3D :=
  if isAnimating c then c
  else
    let c1 := set_currentIndex (currentIndex c - 1) c in
    let c2 :=
      if (currentIndex c1 <? 0)%Z
      then set_currentIndex
             (if loop (config c1) then Z.of_nat (totalItems c1) - 1 else 0)%Z c1
      else c1 in
    resetAutoplay (updateCarousel true c2).

(** [next()] *)
Definition next (c : Carousel3D) : Carousel3D :=
  if isAnimating c then c
  else
    let c1 := set_currentIndex (currentIndex c + 1) c in
    let c2 :=
      if (currentIndex c1 >=? Z.of_nat (totalItems c1))%Z
      then set_currentIndex
             (if loop (config c1) then 0 else Z.of_nat (totalItems c1) - 1)%Z c1
      else c1 in
    resetAutoplay (updateCarousel true c2).

(** [goTo(index)] *)
Definition goTo (index : Z) (c : Carousel3D) : Carousel3D :=
  if isAnimating c || (index =? currentIndex c)%Z then c
  else
    let c1 :=
      set_currentIndex (Z.max 0 (Z.min index (Z.of_nat (totalItems c) - 1))) c in
    resetAutoplay (updateCarousel true c1).

(** What the drag handlers are given: a MouseEvent from the mouse listeners,
    or the Touch that the touch listeners take out of [e.touches] and
    [e.changedTouches].  Both carry [clientX] and [pageX]; only the
    MouseEvent has a [preventDefault] method. *)
Record PointerEvent : Type := mkPointerEvent {
  clientX : R;
  pageX : R;
  canPreventDefault : bool
}.

(** [e.clientX || e.pageX] *)
Definition pointerX (e : PointerEvent) : R :=
  if eqb (clientX e) 0 then pageX e else clientX e.

(** [handleDragStart(e)] *)
Definition handleDragStart (e : PointerEvent) (c : Carousel3D) : Carousel3D :=
  if isAnimating c then c
  else
    let c1 := set_isDragging true c in
    let c2 := set_startX (pointerX e) c1 in
    let c3 := set_currentX (startX c2) c2 in
    stopAutoplay c3.

(** [handleDragMove(e)].  Outside a drag it returns at once.  In a drag it
    first calls [e.preventDefault()], which throws a TypeError on a Touch,
    before any field is written. *)
Definition handleDragMove (e : PointerEvent) (c : Carousel3D) : Outcome Carousel3D :=
  if negb (isDragging c) then Returned c
  else if negb (canPreventDefault e) then Threw c
  else
    let c1 := set_currentX (pointerX e) c in
    let c2 := set_dragDistance (currentX c1 - startX c1) c1 in
    let currentOffset := offset c2 in
    Returned (set_trackTransform (currentOffset + dragDistance c2) c2).

(** [handleDragEnd(e)] *)
Definition handleDragEnd (e : PointerEvent) (c : Carousel3D) : Carousel3D :=
  if negb (isDragging c) then c
  else
    let c1 := set_isDragging false c in
    let c2 :=
      if gtb (Rabs (dragDistance c1)) (dragThreshold (config c1))
      then (if gtb (dragDistance c1) 0 then prev c1 else next c1)
      else updateCarousel true c1 in
    let c3 := set_dragDistance 0 c2 in
    if autoplay (config c3) then startAutoplay c3 else c3.

(** The keys the [keydown] listener answers to. *)
Inductive Key : Type := ArrowLeft | ArrowRight | Home | End_ | OtherKey.

(** The [keydown] listener of [setupKeyboard]. *)
Definition keydown (inView : bool) (k : Key) (c : Carousel3D) : Carousel3D :=
  if negb inView then c
  else
    match k with
    | ArrowLeft => prev c
    | ArrowRight => next c
    | Home => goTo 0 c
    | End_ => goTo (Z.of_nat (totalItems c) - 1) c
    | OtherKey => c
    end.

(** [new Carousel3D(container, config)] on a track of [n] items: the fields
    as the constructor sets them, then [init()]. *)
Definition create (cfg : Config) (n : nat) : Carousel3D :=
  let c0 :=
    {| config := cfg;
       currentIndex := 0;
       totalItems := n;
       isAnimating := false;
       autoplayTimer := None;
       isDragging := false;
       startX := 0;
       currentX := 0;
       dragDistance := 0;
       trackTransform := 0;
       pending := [];
       nextTimer := 1 |} in
  let c1 := updateCarousel false c0 in
  if autoplay (config c1) then startAutoplay c1 else c1.

(** All transitions in flight run to completion, oldest first. *)
Fixpoint finishAll (n : nat) (c : Carousel3D) : Carousel3D :=
  match n with
  | O => c
  | S k => finishAll k (onfinish c)
  end.

Definition completeTransitions (c : Carousel3D) : Carousel3D :=
  finishAll (length (pending c)) c.

(** [currentIndex] is an index of the item array. *)
Definition validIndex (c : Carousel3D) : Prop :=
  (0 <= currentIndex c < Z.of_nat (totalItems c))%Z.

(** *** Inputs of the examples, and names for what the code computes *)

(** The tail of [handleDragEnd]: the drag distance is reset and autoplay is
    restarted when it is configured. *)
Definition afterDrag (c : Carousel3D) : Carousel3D :=
  let c3 := set_dragDistance 0 c in
  if autoplay (config c3) then startAutoplay c3 else c3.

(** [carouselConfig] with [loop: false]. *)
Definition noLoopConfig : Config :=
  {| itemWidth := 320;
     itemGap := 32;
     transitionDuration := 600;
     autoplay := false;
     autoplayDelay := 5000;
     loop := false;
     dragEnabled := true;
     dragThreshold := 50 |}.

(** [carouselConfig] with [autoplay: true]. *)
Definition autoplayConfig : Config :=
  {| itemWidth := 320;
     itemGap := 32;
     transitionDuration := 600;
     autoplay := true;
     autoplayDelay := 5000;
     loop := true;
     dragEnabled := true;
     dragThreshold := 50 |}.

(** A mouse event at [clientX = px]. *)
Definition pointerAt (px : R) : PointerEvent :=
  {| clientX := px; pageX := px; canPreventDefault := true |}.

(** A touch point at [clientX = px]. *)
Definition touchAt (px : R) : PointerEvent :=
  {| clientX := px; pageX := px; canPreventDefault := false |}.

(** A drag by [d] pixels from [clientX = 100], up to the release. *)
Definition dragged (d : R) (c : Carousel3D) : Carousel3D :=
  outcome (handleDragMove (pointerAt (100 + d)) (handleDragStart (pointerAt 100) c)).

(** *** The rest of the controller: hover, the autoplay tick, the item
    styles and the progress bar *)

(** The [mouseenter] listener of [init]. *)
Definition mouseenter (c : Carousel3D) : Carousel3D := stopAutoplay c.

(** The [mouseleave] listener of [init]. *)
Definition mouseleave (c : Carousel3D) : Carousel3D :=
  if autoplay (config c) then startAutoplay c else c.

(** The callback [startAutoplay] gives to [setInterval]. *)
Definition autoplayTick (c : Carousel3D) : Carousel3D := next c.

(** The state classes of an item. *)
Inductive ItemClass : Type := active | adjacent | distant.

(** What [updateItemStates] writes on one item: its class, the angle of
    [rotateY] in degrees, the [scale], the opacity and the [zIndex]. *)
Record ItemStyle : Type := mkItemStyle {
  itemClass : ItemClass;
  rotateY : Z;
  scale : R;
  itemOpacity : R;
  zIndex : Z
}.

(** The body of the [forEach] of [updateItemStates], for the item at
    [index]. *)
Definition itemStyle (current index : Z) : ItemStyle :=
  let distance := Z.abs (index - current) in
  {| itemClass :=
       if (index =? current)%Z then active
       else if (distance =? 1)%Z then adjacent
       else distant;
     rotateY := ((index - current) * 15)%Z;
     scale := 1 - IZR distance * (1 / 10);
     itemOpacity := 1 - IZR distance * (3 / 10);
     zIndex := (100 - distance)%Z |}.

(** [updateItemStates()]: the styles of the items, in the order of the
    track. *)
Definition updateItemStates (c : Carousel3D) : list ItemStyle :=
  map (fun k => itemStyle (currentIndex c) (Z.of_nat k)) (seq 0 (totalItems c)).

(** [updateProgress()]: the width of the progress bar in percent.  With no
    items the quotient is not a finite number and there is no width. *)
Definition updateProgress (c : Carousel3D) : option R :=
  match totalItems c with
  | O => None
  | S _ => Some (IZR (currentIndex c + 1) / INR (totalItems c) * 100)
  end.

(** A navigation call followed by the completion of its transition. *)
Definition nextDone (c : Carousel3D) : Carousel3D := completeTransitions (next c).

Definition prevDone (c : Carousel3D) : Carousel3D := completeTransitions (prev c).

(** The pointer moves of a drag, in the order they arrive.  A listener that
    throws leaves the controller in the state it had reached. *)
Definition dragMoves (es : list PointerEvent) (c : Carousel3D) : Carousel3D :=
  fold_left (fun c' e => outcome (handleDragMove e c')) es c.

(** *** The listeners, as one transition function *)

(** What can happen to a controller: the clicks on the two buttons, a call
    of [goTo] (the controller is exposed as [window.carousel]), the pointer
    events of a drag, a key, the end of the oldest transition in flight, the
    pointer entering and leaving the container, and the tick of the autoplay
    interval. *)
Inductive Event : Type :=
| ClickPrev
| ClickNext
| CallGoTo (index : Z)
| DragStart (e : PointerEvent)
| DragMove (e : PointerEvent)
| DragEnd (e : PointerEvent)
| KeyDown (inView : bool) (k : Key)
| TransitionEnd
| MouseEnter
| MouseLeave
| IntervalTick.

(** The listener of each event, and the state it leaves, whether it returns
    or throws.  [setupDrag] registers the drag listeners only when
    [dragEnabled] is set, and the interval ticks only while [autoplayTimer]
    holds its handle. *)
Definition handle (ev : Event) (c : Carousel3D) : Carousel3D :=
  match ev with
  | ClickPrev => prev c
  | ClickNext => next c
  | CallGoTo i => goTo i c
  | DragStart e => if dragEnabled (config c) then handleDragStart e c else c
  | DragMove e => if dragEnabled (config c) then outcome (handleDragMove e c) else c
  | DragEnd e => if dragEnabled (config c) then handleDragEnd e c else c
  | KeyDown inView k => keydown inView k c
  | TransitionEnd => onfinish c
  | MouseEnter => mouseenter c
  | MouseLeave => mouseleave c
  | IntervalTick =>
      match autoplayTimer c with
      | Some _ => autoplayTick c
      | None => c
      end
  end.

(** A session: the events handled in the order they arrive. *)
Definition run (evs : list Event) (c : Carousel3D) : Carousel3D :=
  fold_left (fun c' ev => handle ev c') evs c.

(** What every state of a session satisfies (see [session_invariant]). *)
Definition wellFormed (c : Carousel3D) : Prop :=
  (isAnimating c = true -> pending c <> []) /\
  (isDragging c = false -> dragDistance c = 0) /\
  (autoplay (config c) = false -> autoplayTimer c = None) /\
  (forall h, autoplayTimer c = Some h -> (h < nextTimer c)%nat).

End Carousel.

(** ** Facts about the comparisons *)

Module NumFacts.
Import Num.
Open Scope R_scope.

Lemma ltb_lt a b : ltb a b = true <-> a < b.
Proof.
  unfold ltb; destruct (Rlt_dec a b); split; intros;
    (assumption || discriminate || reflexivity || contradiction).
Qed.

Lemma ltb_ge a b : ltb a b = false <-> b <= a.
Proof.
  unfold ltb; destruct (Rlt_dec a b); split; intros;
    try discriminate; try reflexivity; lra.
Qed.

Lemma ltb_true a b : a < b -> ltb a b = true.
Proof. apply ltb_lt. Qed.

Lemma ltb_false a b : b <= a -> ltb a b = false.
Proof. apply ltb_ge. Qed.

Lemma gtb_true a b : b < a -> gtb a b = true.
Proof. apply ltb_lt. Qed.

Lemma gtb_false a b : a <= b -> gtb a b = false.
Proof. apply ltb_ge. Qed.

Lemma eqb_eq a b : eqb a b = true <-> a = b.
Proof.
  unfold eqb; destruct (Req_dec_T a b); split; intros;
    (assumption || discriminate || reflexivity || contradiction).
Qed.

Lemma eqb_neq a b : eqb a b = false <-> a <> b.
Proof.
  unfold eqb; destruct (Req_dec_T a b); split; intros;
    (assumption || discriminate || reflexivity || contradiction).
Qed.

(** The angle of a point on the positive x axis. *)
Lemma atan2_0_pos a : 0 < a -> atan2 0 a = 0.
Proof.
  intros Ha. unfold atan2. rewrite (ltb_true 0 a Ha).
  replace (0 / a) with 0 by (field; lra). apply atan_0.
Qed.

End NumFacts.

(** ** Properties of the particle field *)

Module ParticlesFacts.
Import Num NumFacts Particles.
Open Scope R_scope.

Lemma unit_draws_random0 : unit_draws random0.
Proof.
  intros n. simpl. unfold draws0.
  destruct n as [|[|[|n]]]; lra.
Qed.

(** *** What [update] does to each field *)

(** Runs [update] on the draws [g]: names the results of the two bounces and
    of the mouse interaction, after which each field can be read off. *)
Ltac run_update g :=
  unfold update;
  let vx1 := fresh "vx1" in let g1 := fresh "g1" in
  let vy1 := fresh "vy1" in let g2 := fresh "g2" in
  let vx3 := fresh "vx3" in let vy3 := fresh "vy3" in
  destruct (bounce _ _ _ g) as [vx1 g1];
  destruct (bounce _ _ _ g1) as [vy1 g2];
  destruct (mouseInteraction _ _ _ _ _ _) as [vx3 vy3];
  cbn [fst snd]; try reflexivity.

Lemma update_x cfg cv m p g : x (fst (update cfg cv m p g)) = x p + vx p.
Proof.
  run_update g.
Qed.

Lemma update_y cfg cv m p g : y (fst (update cfg cv m p g)) = y p + vy p.
Proof.
  run_update g.
Qed.

Lemma update_size cfg cv m p g : size (fst (update cfg cv m p g)) = size p.
Proof.
  run_update g.
Qed.

Lemma update_opacity cfg cv m p g : opacity (fst (update cfg cv m p g)) = opacity p.
Proof.
  run_update g.
Qed.

(** The velocity after [update]: the mouse interaction applied to the
    clamped bounce of each component. *)
Lemma update_velocity cfg cv m p g :
  let x1 := x p + vx p in
  let y1 := y p + vy p in
  let b1 := bounce x1 (width cv) (vx p) g in
  let b2 := bounce y1 (height cv) (vy p) (snd b1) in
  let maxSpeed := particleSpeed cfg * 2 in
  (vx (fst (update cfg cv m p g)), vy (fst (update cfg cv m p g))) =
  mouseInteraction cfg m x1 y1 (clampSpeed maxSpeed (fst b1)) (clampSpeed maxSpeed (fst b2)).
Proof.
  cbv zeta. unfold update.
  destruct (bounce _ _ _ g) as [vx1 g1]. cbn [fst snd].
  destruct (bounce _ _ _ g1) as [vy1 g2]. cbn [fst snd].
  destruct (mouseInteraction _ _ _ _ _ _) as [vx3 vy3]. reflexivity.
Qed.

Lemma clampSpeed_bound maxSpeed v :
  0 <= maxSpeed -> - maxSpeed <= clampSpeed maxSpeed v <= maxSpeed.
Proof.
  intros Hm. unfold clampSpeed, Rmax, Rmin.
  destruct (Rle_dec maxSpeed v); destruct (Rle_dec _ _); lra.
Qed.

Lemma clampSpeed_abs maxSpeed v :
  0 <= maxSpeed -> Rabs (clampSpeed maxSpeed v) <= maxSpeed.
Proof.
  intros Hm. apply Rabs_le. apply clampSpeed_bound; assumption.
Qed.

(** *** The mouse interaction *)



(** The force is in (0, 1] and the direction is a unit vector: the mouse
    moves each velocity component by at most [mouseForce]. *)
Lemma mouseInteraction_bound cfg m px py v_x v_y :
  0 <= mouseForce cfg ->
  Rabs (fst (mouseInteraction cfg m px py v_x v_y) - v_x) <= mouseForce cfg /\
  Rabs (snd (mouseInteraction cfg m px py v_x v_y) - v_y) <= mouseForce cfg.
Proof.
  intros Hf. unfold mouseInteraction.
  assert (H0 : Rabs 0 <= mouseForce cfg) by (rewrite Rabs_R0; assumption).
  destruct (mouse_x m) as [mx|], (mouse_y m) as [my|]; cbn [fst snd];
    try (replace (v_x - v_x) with 0 by ring; replace (v_y - v_y) with 0 by ring;
         split; assumption).
  set (d := sqrt _).
  destruct (ltb d (radius m)) eqn:Hlt; cbn [fst snd];
    try (replace (v_x - v_x) with 0 by ring; replace (v_y - v_y) with 0 by ring;
         split; assumption).
  apply ltb_lt in Hlt.
  assert (Hd : 0 <= d) by apply sqrt_pos.
  assert (Hr : 0 < radius m) by lra.
  set (force := (radius m - d) / radius m).
  assert (Hforce : 0 <= force <= 1).
  { unfold force. split.
    - apply Rmult_le_pos; [lra | left; apply Rinv_0_lt_compat; assumption].
    - apply (Rmult_le_reg_r (radius m)); [assumption|].
      unfold Rdiv. rewrite Rmult_assoc, Rinv_l by lra. lra. }
  set (angle := atan2 _ _).
  pose proof (COS_bound angle) as [Hc1 Hc2].
  pose proof (SIN_bound angle) as [Hs1 Hs2].
  assert (Hcf : -1 <= cos angle * force <= 1) by (split; nra).
  assert (Hsf : -1 <= sin angle * force <= 1) by (split; nra).
  set (cf := cos angle * force) in *. set (sf := sin angle * force) in *.
  split; apply Rabs_le; split; nra.
Qed.

(** *** Frames *)

Lemma step_singleton cfg cv m p g :
  fst (step cfg cv m [p] g) = [fst (update cfg cv m p g)].
Proof.
  simpl. destruct (update cfg cv m p g) as [p' g1]. reflexivity.
Qed.

Lemma step_singleton_snd cfg cv m p g :
  snd (step cfg cv m [p] g) = snd (update cfg cv m p g).
Proof.
  simpl. destruct (update cfg cv m p g) as [p' g1]. reflexivity.
Qed.

Lemma step_cons cfg cv m p ps g :
  fst (step cfg cv m (p :: ps) g) =
  fst (update cfg cv m p g) :: fst (step cfg cv m ps (snd (update cfg cv m p g))).
Proof.
  simpl. destruct (update cfg cv m p g) as [p' g1]. cbn [fst snd].
  destruct (step cfg cv m ps g1) as [ps' g2]. reflexivity.
Qed.

Lemma steps_S cfg cv ms n ps g :
  steps cfg cv ms (S n) ps g =
  step cfg cv (ms n) (fst (steps cfg cv ms n ps g)) (snd (steps cfg cv ms n ps g)).
Proof.
  simpl. destruct (steps cfg cv ms n ps g) as [ps1 g1]. reflexivity.
Qed.

Lemma step_frame cfg cv m ps : forall g,
  map size (fst (step cfg cv m ps g)) = map size ps /\
  map opacity (fst (step cfg cv m ps g)) = map opacity ps.
Proof.
  induction ps as [|p ps IH]; intros g.
  - split; reflexivity.
  - rewrite step_cons. cbn [map].
    rewrite update_size, update_opacity.
    destruct (IH (snd (update cfg cv m p g))) as [-> ->]. split; reflexivity.
Qed.

Lemma steps_frame cfg cv ms n : forall ps g,
  map size (fst (steps cfg cv ms n ps g)) = map size ps /\
  map opacity (fst (steps cfg cv ms n ps g)) = map opacity ps.
Proof.
  induction n as [|n IH]; intros ps g.
  - split; reflexivity.
  - rewrite steps_S.
    destruct (step_frame cfg cv (ms n) (fst (steps cfg cv ms n ps g))
                (snd (steps cfg cv ms n ps g))) as [-> ->].
    apply IH.
Qed.

(** *** The claims *)

(** C10: [update] leaves [size] and [opacity] as the constructor set them,
    for every particle, mouse and source of draws; so does a frame on the
    whole collection, and so does any number of frames. *)
Theorem update_frame_size_opacity :
  forall cfg cv m p g,
    size (fst (update cfg cv m p g)) = size p /\
    opacity (fst (update cfg cv m p g)) = opacity p /\
    forall ms n ps,
      map size (fst (steps cfg cv ms n ps g)) = map size ps /\
      map opacity (fst (steps cfg cv ms n ps g)) = map opacity ps.
Proof.
  intros cfg cv m p g. split; [apply update_size|].
  split; [apply update_opacity|].
  intros ms n ps. apply steps_frame.
Qed.

(** C1, as stated, fails: a particle the constructor can make, 0.1 from the
    left edge and moving left at 0.2 per frame, is at x = -0.1 after one
    frame with the pointer outside the canvas. *)
Lemma position_leaves_canvas :
  unit_draws random0 /\
  in_bounds canvas0 (fst (newParticle config canvas0 random0)) /\
  exists p,
    In p (fst (steps config canvas0 (fun _ => mouse config) 1
                 [fst (newParticle config canvas0 random0)]
                 (snd (newParticle config canvas0 random0)))) /\
    x p < 0.
Proof.
  split; [apply unit_draws_random0|]. split.
  - unfold in_bounds; simpl; unfold draws0; lra.
  - eexists. split.
    + rewrite steps_S. cbn [steps fst snd]. rewrite step_singleton. left. reflexivity.
    + rewrite update_x. simpl. unfold draws0. lra.
Qed.

(** C1, amended: [update] adds the velocity to the position and does not
    clamp the position; the edge handling acts on the velocity only.  From a
    position inside the canvas the new position is outside by at most the
    magnitude of the velocity the particle had, whatever the mouse does. *)
Theorem update_position_overshoot :
  forall cfg cv m p g,
    in_bounds cv p ->
    let p' := fst (update cfg cv m p g) in
    x p' = x p + vx p /\ y p' = y p + vy p /\
    - Rabs (vx p) <= x p' <= width cv + Rabs (vx p) /\
    - Rabs (vy p) <= y p' <= height cv + Rabs (vy p).
Proof.
  intros cfg cv m p g [[Hx0 Hx1] [Hy0 Hy1]] p'. subst p'.
  rewrite update_x, update_y.
  pose proof (Rle_abs (vx p)). pose proof (Rle_abs (- vx p)) as Hnx.
  pose proof (Rle_abs (vy p)). pose proof (Rle_abs (- vy p)) as Hny.
  rewrite Rabs_Ropp in Hnx, Hny.
  repeat split; lra.
Qed.

Lemma update_position_overshoot_witness :
  let p := fst (newParticle config canvas0 random0) in
  let p' := fst (update config canvas0 (mouse config) p
                   (snd (newParticle config canvas0 random0))) in
  x p' = x p + vx p /\ y p' = y p + vy p /\
  - Rabs (vx p) <= x p' <= width canvas0 + Rabs (vx p) /\
  - Rabs (vy p) <= y p' <= height canvas0 + Rabs (vy p).
Proof.
  apply (update_position_overshoot config canvas0 (mouse config)
           (fst (newParticle config canvas0 random0))
           (snd (newParticle config canvas0 random0))).
  unfold in_bounds; simpl; unfold draws0; lra.
Defined.

(** *** Velocity *)

Lemma clampSpeed_id maxSpeed v :
  - maxSpeed <= v <= maxSpeed -> clampSpeed maxSpeed v = v.
Proof.
  intros [H1 H2]. unfold clampSpeed, Rmax, Rmin.
  destruct (Rle_dec maxSpeed v); destruct (Rle_dec _ _); lra.
Qed.

Lemma bounce_inside pos limit v g :
  0 <= pos <= limit -> bounce pos limit v g = (v, g).
Proof.
  intros [H0 H1]. unfold bounce.
  rewrite ltb_false, gtb_false by assumption. reflexivity.
Qed.

(** One frame of a particle that stays inside the canvas, with the pointer
    one pixel to its right: the force is [(r - 1) / r], along the x axis. *)
Lemma update_repelled cfg cv mx my r p g :
  0 <= x p + vx p <= width cv ->
  0 <= y p + vy p <= height cv ->
  mx - (x p + vx p) = 1 ->
  my - (y p + vy p) = 0 ->
  1 < r ->
  let maxSpeed := particleSpeed cfg * 2 in
  update cfg cv (mkMouse (Some mx) (Some my) r) p g =
  ({| x := x p + vx p;
      y := y p + vy p;
      vx := clampSpeed maxSpeed (vx p) - (r - 1) / r * mouseForce cfg;
      vy := clampSpeed maxSpeed (vy p);
      size := size p;
      opacity := opacity p |}, g).
Proof.
  intros Hx Hy Hdx Hdy Hr maxSpeed. unfold update.
  rewrite (bounce_inside _ _ _ _ Hx), (bounce_inside _ _ _ _ Hy).
  unfold mouseInteraction. cbn [mouse_x mouse_y radius].
  rewrite Hdx, Hdy.
  replace (1 * 1 + 0 * 0) with 1 by ring. rewrite sqrt_1.
  rewrite (ltb_true 1 r Hr).
  rewrite atan2_0_pos by lra. rewrite cos_0, sin_0.
  fold maxSpeed. f_equal. f_equal; ring.
Qed.

Lemma unit_draws_random1 : unit_draws random1.
Proof.
  intros n. simpl. unfold draws1.
  destruct n as [|[|[|n]]]; lra.
Qed.

(** C2, as stated, fails: the mouse force is subtracted after the clamp.
    The particle above has |vx| = 358/300 > 1 = 2 x base speed after the
    second frame. *)
Lemma speed_exceeds_clamp :
  unit_draws random1 /\
  exists p,
    In p (fst (steps config canvas0 mouse1 2
                 [fst (newParticle config canvas0 random1)]
                 (snd (newParticle config canvas0 random1)))) /\
    Rabs (vx p) > 2 * particleSpeed config.
Proof.
  split; [apply unit_draws_random1|].
  eexists. split.
  - rewrite steps_S, steps_S. cbn [steps fst snd].
    rewrite step_singleton. rewrite step_singleton. left. reflexivity.
  - rewrite step_singleton_snd.
    change (mouse1 0) with (mkMouse (Some (508 / 10)) (Some 50) 150).
    change (mouse1 1) with (mkMouse (Some (15031 / 300)) (Some 50) 150).
    set (p0 := fst (newParticle config canvas0 random1)).
    set (g0 := snd (newParticle config canvas0 random1)).
    assert (E1 : update config canvas0 (mkMouse (Some (508 / 10)) (Some 50) 150) p0 g0 =
                 ({| x := 498 / 10; y := 50; vx := - (209 / 300); vy := 0;
                     size := size p0; opacity := opacity p0 |}, g0)).
    { rewrite update_repelled;
        try (subst p0; simpl; unfold draws1; lra).
      f_equal.
      assert (Hvx : vx p0 = - (2 / 10)) by (subst p0; simpl; unfold draws1; lra).
      assert (Hvy : vy p0 = 0) by (subst p0; simpl; unfold draws1; lra).
      rewrite Hvx, Hvy.
      rewrite !clampSpeed_id by (simpl; lra).
      f_equal; subst p0; simpl; unfold draws1; lra. }
    rewrite E1. cbn [fst snd].
    rewrite update_repelled; try (simpl; lra).
    cbn [fst vx].
    rewrite clampSpeed_id by (simpl; lra).
    simpl. rewrite Rabs_left by lra. lra.
Qed.

(** C2, amended: the clamp bounds both components by 2 x base speed, and the
    mouse force, applied after it, moves each by at most [mouseForce].  So
    after every step the components are within 2 x base speed + mouse force,
    and within 2 x base speed whenever the pointer is absent or at a distance
    of at least the influence radius from the moved particle. *)
Theorem update_speed_bound :
  forall cfg cv m p g,
    0 <= particleSpeed cfg ->
    0 <= mouseForce cfg ->
    let p' := fst (update cfg cv m p g) in
    let maxSpeed := 2 * particleSpeed cfg in
    (Rabs (vx p') <= maxSpeed + mouseForce cfg /\
     Rabs (vy p') <= maxSpeed + mouseForce cfg) /\
    (mouse_x m = None \/ mouse_y m = None ->
     Rabs (vx p') <= maxSpeed /\ Rabs (vy p') <= maxSpeed) /\
    (forall mx my,
       mouse_x m = Some mx -> mouse_y m = Some my ->
       radius m <= distance mx my (x p') (y p') ->
       Rabs (vx p') <= maxSpeed /\ Rabs (vy p') <= maxSpeed).
Proof.
  intros cfg cv m p g Hs Hf p' maxSpeed.
  pose proof (update_velocity cfg cv m p g) as Hv. cbv zeta in Hv.
  fold p' in Hv.
  set (b1 := bounce _ _ _ g) in Hv.
  set (b2 := bounce _ _ _ (snd b1)) in Hv.
  replace (particleSpeed cfg * 2) with maxSpeed in Hv by (unfold maxSpeed; ring).
  assert (Hm : 0 <= maxSpeed) by (unfold maxSpeed; lra).
  pose proof (clampSpeed_abs maxSpeed (fst b1) Hm) as Hc1.
  pose proof (clampSpeed_abs maxSpeed (fst b2) Hm) as Hc2.
  set (c1 := clampSpeed maxSpeed (fst b1)) in *.
  set (c2 := clampSpeed maxSpeed (fst b2)) in *.
  split; [|split].
  - destruct (mouseInteraction_bound cfg m (x p + vx p) (y p + vy p) c1 c2 Hf)
      as [B1 B2].
    rewrite <- Hv in B1, B2. cbn [fst snd] in B1, B2.
    split.
    + replace (vx p') with ((vx p' - c1) + c1) by ring.
      eapply Rle_trans; [apply Rabs_triang|]. lra.
    + replace (vy p') with ((vy p' - c2) + c2) by ring.
      eapply Rle_trans; [apply Rabs_triang|]. lra.
  - intros Hnone.
    assert (E : mouseInteraction cfg m (x p + vx p) (y p + vy p) c1 c2 = (c1, c2)).
    { unfold mouseInteraction.
      destruct Hnone as [-> | ->]; [reflexivity|].
      destruct (mouse_x m); reflexivity. }
    rewrite E in Hv. injection Hv as -> ->. split; assumption.
  - intros mx my Hmx Hmy Hd.
    unfold p' in Hd. rewrite update_x, update_y in Hd.
    assert (E : mouseInteraction cfg m (x p + vx p) (y p + vy p) c1 c2 = (c1, c2)).
    { unfold mouseInteraction, distance in *. rewrite Hmx, Hmy.
      rewrite ltb_false by assumption. reflexivity. }
    rewrite E in Hv. injection Hv as -> ->. split; assumption.
Qed.

Lemma update_speed_bound_witness :
  let p' := fst (update config canvas0 (mouse1 0)
                   (fst (newParticle config canvas0 random1))
                   (snd (newParticle config canvas0 random1))) in
  Rabs (vx p') <= 2 * particleSpeed config + mouseForce config /\
  Rabs (vy p') <= 2 * particleSpeed config + mouseForce config.
Proof.
  apply (update_speed_bound config canvas0 (mouse1 0)
           (fst (newParticle config canvas0 random1))
           (snd (newParticle config canvas0 random1))); simpl; lra.
Defined.

(** *** Connections *)

Lemma In_connectPairs cfg p rest s :
  In s (connectPairs cfg p rest) <->
  exists q, In q rest /\
            distance (x p) (y p) (x q) (y q) < connectionDistance cfg /\
            s = pairStroke cfg p q.
Proof.
  induction rest as [|q rest IH]; simpl.
  - split; [intros [] | intros (q & [] & _)].
  - destruct (ltb _ _) eqn:Hlt.
    + apply ltb_lt in Hlt. simpl. rewrite IH. split.
      * intros [<- | (q' & Hq & Hd & ->)].
        -- exists q. repeat split; auto.
        -- exists q'. repeat split; auto.
      * intros (q' & [<- | Hq] & Hd & ->).
        -- left. reflexivity.
        -- right. exists q'. repeat split; auto.
    + apply ltb_ge in Hlt. rewrite IH. split.
      * intros (q' & Hq & Hd & ->). exists q'. repeat split; auto.
      * intros (q' & [<- | Hq] & Hd & ->); [lra|].
        exists q'. repeat split; auto.
Qed.

Lemma connectMouse_style m p s :
  In s (connectMouse m p) -> strokeStyle s = mouseConnection.
Proof.
  unfold connectMouse.
  destruct (mouse_x m), (mouse_y m); try (intros []).
  destruct (ltb _ _); [|intros []].
  intros [<- | []]. reflexivity.
Qed.

(** The connection strokes of [connectParticles] are exactly the strokes of
    the pairs [i < j] that are closer than the threshold. *)
Lemma In_connectParticles cfg m ps : forall s,
  In s (connectParticles cfg m ps) /\ strokeStyle s = connection <->
  exists i j p q,
    (i < j)%nat /\ nth_error ps i = Some p /\ nth_error ps j = Some q /\
    distance (x p) (y p) (x q) (y q) < connectionDistance cfg /\
    s = pairStroke cfg p q.
Proof.
  induction ps as [|p0 ps IH]; intros s.
  - simpl. split; [intros [[] _]|].
    intros (i & j & p & q & _ & Hi & _). destruct i; discriminate.
  - cbn [connectParticles]. rewrite !in_app_iff. split.
    + intros [[Hin | [Hin | Hin]] Hst].
      * apply In_connectPairs in Hin as (q & Hq & Hd & ->).
        apply In_nth_error in Hq as [j Hj].
        exists 0%nat, (S j), p0, q. repeat split; auto. lia.
      * apply connectMouse_style in Hin. congruence.
      * destruct (proj1 (IH s) (conj Hin Hst)) as (i & j & p & q & Hij & Hi & Hj & Hd & ->).
        exists (S i), (S j), p, q. repeat split; auto. lia.
    + intros (i & j & p & q & Hij & Hi & Hj & Hd & ->).
      split; [|reflexivity].
      destruct j as [|j]; [lia|]. cbn [nth_error] in Hj.
      destruct i as [|i].
      * cbn [nth_error] in Hi. injection Hi as ->.
        left. apply In_connectPairs. exists q. repeat split; auto.
        eapply nth_error_In; eassumption.
      * cbn [nth_error] in Hi. right. right.
        apply (IH (pairStroke cfg p q)).
        exists i, j, p, q. repeat split; auto. lia.
Qed.

Lemma distance_AB : distance (x particleA) (y particleA) (x particleB) (y particleB) = 60.
Proof.
  unfold distance. simpl.
  replace ((0 - 60) * (0 - 60) + (0 - 0) * (0 - 0)) with (60 * 60) by ring.
  apply sqrt_square. lra.
Qed.

(** C3, as stated, fails on the opacity: the falloff [1 - d / threshold] is
    halved before it becomes the alpha of the stroke.  At distance 60 of a
    threshold of 120 the segment is drawn with alpha 1/4, not 1/2. *)
Lemma connection_alpha_is_halved :
  distance (x particleA) (y particleA) (x particleB) (y particleB) = 60 /\
  connectParticles config (mouse config) [particleA; particleB] =
    [ {| strokeStyle := connection;
         globalAlpha := 1 / 4;
         lineWidth := 1;
         moveTo := (0, 0);
         lineTo := (60, 0) |} ] /\
  1 / 4 <> 1 - 60 / connectionDistance config.
Proof.
  split; [apply distance_AB|]. split; [|simpl; lra].
  cbn [connectParticles connectPairs connectMouse mouse mouse_x mouse_y app].
  rewrite distance_AB.
  rewrite ltb_true by (simpl; lra).
  simpl. f_equal. f_equal. lra.
Qed.

(** C3, amended: for particles [i < j] at distance [d], if [d < threshold]
    a segment from the first to the second is stroked whose alpha is
    [(1 - d / threshold) * 0.5]; if [d >= threshold] no connection segment
    joins them. *)
Theorem connections_pair_segment :
  forall cfg m ps i j p q,
    (i < j)%nat ->
    nth_error ps i = Some p ->
    nth_error ps j = Some q ->
    let d := distance (x p) (y p) (x q) (y q) in
    let threshold := connectionDistance cfg in
    (d < threshold ->
     In {| strokeStyle := connection;
           globalAlpha := (1 - d / threshold) * (5 / 10);
           lineWidth := 1;
           moveTo := (x p, y p);
           lineTo := (x q, y q) |} (connectParticles cfg m ps)) /\
    (threshold <= d ->
     forall s, In s (connectParticles cfg m ps) ->
               strokeStyle s = connection ->
               ~ (moveTo s = (x p, y p) /\ lineTo s = (x q, y q))).
Proof.
  intros cfg m ps i j p q Hij Hi Hj d threshold. split.
  - intros Hd.
    apply (In_connectParticles cfg m ps (pairStroke cfg p q)).
    exists i, j, p, q. repeat split; auto.
  - intros Hd s Hin Hst [Hfrom Hto].
    destruct (proj1 (In_connectParticles cfg m ps s) (conj Hin Hst))
      as (i' & j' & p' & q' & _ & _ & _ & Hd' & ->).
    cbn [pairStroke moveTo lineTo] in Hfrom, Hto.
    injection Hfrom as Hx1 Hy1. injection Hto as Hx2 Hy2.
    rewrite Hx1, Hy1, Hx2, Hy2 in Hd'. fold d in Hd'. unfold threshold in Hd. lra.
Qed.

Lemma connections_pair_segment_witness :
  In {| strokeStyle := connection;
        globalAlpha :=
          (1 - distance (x particleA) (y particleA) (x particleB) (y particleB)
               / connectionDistance config) * (5 / 10);
        lineWidth := 1;
        moveTo := (x particleA, y particleA);
        lineTo := (x particleB, y particleB) |}
     (connectParticles config (mouse config) [particleA; particleB]).
Proof.
  apply (connections_pair_segment config (mouse config) [particleA; particleB]
           0 1 particleA particleB); try reflexivity.
  - lia.
  - rewrite distance_AB. simpl. lra.
Defined.

(** *** The absent pointer and the far pointer *)






End ParticlesFacts.

(** ** Properties of the carousel controller *)

Module CarouselFacts.
Import Num NumFacts Carousel.
Open Scope R_scope.

(** *** The autoplay timer touches no navigation field *)

Lemma resetAutoplay_fields c :
  config (resetAutoplay c) = config c /\
  currentIndex (resetAutoplay c) = currentIndex c /\
  totalItems (resetAutoplay c) = totalItems c /\
  isAnimating (resetAutoplay c) = isAnimating c /\
  pending (resetAutoplay c) = pending c.
Proof.
  unfold resetAutoplay, startAutoplay, stopAutoplay.
  destruct (autoplay (config c)); [|repeat split].
  destruct (autoplayTimer c); repeat split.
Qed.

Lemma afterDrag_fields c :
  config (afterDrag c) = config c /\
  currentIndex (afterDrag c) = currentIndex c /\
  totalItems (afterDrag c) = totalItems c /\
  isAnimating (afterDrag c) = isAnimating c /\
  pending (afterDrag c) = pending c.
Proof.
  destruct c as [cfg i n a t d sx cx dd tt pd nt].
  unfold afterDrag, startAutoplay, stopAutoplay. cbn.
  destruct (autoplay cfg); [|repeat split; reflexivity].
  destruct t; repeat split; reflexivity.
Qed.

Lemma updateCarousel_true_fields c :
  config (updateCarousel true c) = config c /\
  currentIndex (updateCarousel true c) = currentIndex c /\
  totalItems (updateCarousel true c) = totalItems c /\
  isAnimating (updateCarousel true c) = true /\
  pending (updateCarousel true c) =
    pending c ++ [ {| fromX := trackTransform c; toX := offset c |} ].
Proof. repeat split. Qed.

(** What a navigation call that is not ignored leaves behind, given the
    index it computed. *)
Lemma navigate_fields i c :
  let c' := resetAutoplay (updateCarousel true (set_currentIndex i c)) in
  config c' = config c /\
  currentIndex c' = i /\
  totalItems c' = totalItems c /\
  isAnimating c' = true /\
  pending c' <> [].
Proof.
  intros c'. subst c'.
  destruct (resetAutoplay_fields (updateCarousel true (set_currentIndex i c)))
    as (-> & -> & -> & -> & ->).
  repeat split. cbn. intros H. apply app_eq_nil in H as [_ H]. discriminate.
Qed.

Lemma prev_index c :
  isAnimating c = false ->
  currentIndex (prev c) =
    (if currentIndex c - 1 <? 0
     then (if loop (config c) then Z.of_nat (totalItems c) - 1 else 0)
     else currentIndex c - 1)%Z /\
  isAnimating (prev c) = true /\ pending (prev c) <> [] /\
  totalItems (prev c) = totalItems c /\ config (prev c) = config c.
Proof.
  intros Hidle. unfold prev. rewrite Hidle. cbn [currentIndex set_currentIndex].
  destruct (currentIndex c - 1 <? 0)%Z.
  - pose proof (navigate_fields
      (if loop (config c) then Z.of_nat (totalItems c) - 1 else 0)%Z
      (set_currentIndex (currentIndex c - 1) c)) as H.
    cbv zeta in H. cbn [config totalItems set_currentIndex] in *.
    destruct H as (? & ? & ? & ? & ?). repeat split; assumption.
  - pose proof (navigate_fields (currentIndex c - 1)%Z c) as H.
    cbv zeta in H. destruct H as (? & ? & ? & ? & ?). repeat split; assumption.
Qed.

Lemma next_index c :
  isAnimating c = false ->
  currentIndex (next c) =
    (if currentIndex c + 1 >=? Z.of_nat (totalItems c)
     then (if loop (config c) then 0 else Z.of_nat (totalItems c) - 1)
     else currentIndex c + 1)%Z /\
  isAnimating (next c) = true /\ pending (next c) <> [] /\
  totalItems (next c) = totalItems c /\ config (next c) = config c.
Proof.
  intros Hidle. unfold next. rewrite Hidle. cbn [currentIndex totalItems set_currentIndex].
  destruct (currentIndex c + 1 >=? Z.of_nat (totalItems c))%Z.
  - pose proof (navigate_fields
      (if loop (config c) then 0 else Z.of_nat (totalItems c) - 1)%Z
      (set_currentIndex (currentIndex c + 1) c)) as H.
    cbv zeta in H. cbn [config totalItems set_currentIndex] in *.
    destruct H as (? & ? & ? & ? & ?). repeat split; assumption.
  - pose proof (navigate_fields (currentIndex c + 1)%Z c) as H.
    cbv zeta in H. destruct H as (? & ? & ? & ? & ?). repeat split; assumption.
Qed.

Lemma goTo_index i c :
  isAnimating c = false ->
  i <> currentIndex c ->
  currentIndex (goTo i c) = Z.max 0 (Z.min i (Z.of_nat (totalItems c) - 1)) /\
  isAnimating (goTo i c) = true /\ pending (goTo i c) <> [] /\
  totalItems (goTo i c) = totalItems c /\ config (goTo i c) = config c.
Proof.
  intros Hidle Hne. unfold goTo. rewrite Hidle.
  apply Z.eqb_neq in Hne. rewrite Hne. cbn [orb].
  pose proof (navigate_fields
    (Z.max 0 (Z.min i (Z.of_nat (totalItems c) - 1))) c) as H.
  cbv zeta in H. destruct H as (? & ? & ? & ? & ?). repeat split; assumption.
Qed.

Lemma goTo_same c : goTo (currentIndex c) c = c.
Proof. unfold goTo. rewrite Z.eqb_refl, orb_true_r. reflexivity. Qed.

Lemma navigation_ignored c i :
  isAnimating c = true -> next c = c /\ prev c = c /\ goTo i c = c.
Proof.
  intros H. unfold next, prev, goTo. rewrite H. repeat split.
Qed.

(** *** Transitions run to completion *)

Lemma onfinish_fields c :
  config (onfinish c) = config c /\
  currentIndex (onfinish c) = currentIndex c /\
  totalItems (onfinish c) = totalItems c /\
  pending (onfinish c) = tl (pending c) /\
  (pending c <> [] -> isAnimating (onfinish c) = false).
Proof.
  unfold onfinish. destruct (pending c) as [|a rest] eqn:E.
  - repeat split; auto. intros H; contradiction.
  - repeat split.
Qed.

Lemma finishAll_fields n : forall c,
  length (pending c) = n ->
  config (finishAll n c) = config c /\
  currentIndex (finishAll n c) = currentIndex c /\
  totalItems (finishAll n c) = totalItems c /\
  pending (finishAll n c) = [] /\
  (pending c <> [] -> isAnimating (finishAll n c) = false).
Proof.
  induction n as [|n IH]; intros c Hlen.
  - cbn. repeat split. + destruct (pending c); [reflexivity|discriminate].
    + intros H. destruct (pending c); [contradiction|discriminate].
  - destruct (onfinish_fields c) as (Hc & Hi & Ht & Hp & Ha).
    cbn [finishAll].
    destruct (pending c) as [|a rest] eqn:E; [discriminate|].
    assert (Hlen' : length (pending (onfinish c)) = n).
    { rewrite Hp. cbn in *. lia. }
    destruct (IH (onfinish c) Hlen') as (Hc' & Hi' & Ht' & Hp' & Ha').
    repeat split; try congruence.
    intros _. destruct (pending (onfinish c)) as [|b rest'] eqn:E'.
    + destruct n; [|discriminate]. cbn. apply Ha. discriminate.
    + apply Ha'. discriminate.
Qed.

(** *** The claims *)

(** C5: [next], [prev] and [goTo] keep [currentIndex] an index of the item
    array, [0 <= currentIndex < totalItems]; with [loop] off that is the
    clamp to [0, length - 1]. *)
Theorem navigation_keeps_index_valid :
  forall c i,
    validIndex c ->
    validIndex (next c) /\ validIndex (prev c) /\ validIndex (goTo i c) /\
    (loop (config c) = false ->
     (0 <= currentIndex (next c) <= Z.of_nat (totalItems c) - 1)%Z /\
     (0 <= currentIndex (prev c) <= Z.of_nat (totalItems c) - 1)%Z /\
     (0 <= currentIndex (goTo i c) <= Z.of_nat (totalItems c) - 1)%Z).
Proof.
  intros c i Hv. unfold validIndex in *.
  assert (Hn : (0 <= currentIndex (next c) < Z.of_nat (totalItems (next c)))%Z /\
               totalItems (next c) = totalItems c).
  { destruct (isAnimating c) eqn:Ha.
    - destruct (navigation_ignored c i Ha) as (-> & _ & _). auto.
    - destruct (next_index c Ha) as (-> & _ & _ & -> & _). split; [|reflexivity].
      destruct (currentIndex c + 1 >=? Z.of_nat (totalItems c))%Z eqn:E;
        [destruct (loop (config c))|]; lia. }
  assert (Hp : (0 <= currentIndex (prev c) < Z.of_nat (totalItems (prev c)))%Z /\
               totalItems (prev c) = totalItems c).
  { destruct (isAnimating c) eqn:Ha.
    - destruct (navigation_ignored c i Ha) as (_ & -> & _). auto.
    - destruct (prev_index c Ha) as (-> & _ & _ & -> & _). split; [|reflexivity].
      destruct (currentIndex c - 1 <? 0)%Z eqn:E;
        [destruct (loop (config c))|]; lia. }
  assert (Hg : (0 <= currentIndex (goTo i c) < Z.of_nat (totalItems (goTo i c)))%Z /\
               totalItems (goTo i c) = totalItems c).
  { destruct (isAnimating c) eqn:Ha.
    - destruct (navigation_ignored c i Ha) as (_ & _ & ->). auto.
    - destruct (Z.eq_dec i (currentIndex c)) as [-> | Hne].
      + rewrite goTo_same. auto.
      + destruct (goTo_index i c Ha Hne) as (-> & _ & _ & -> & _).
        split; [lia | reflexivity]. }
  destruct Hn as [Hn Hn'], Hp as [Hp Hp'], Hg as [Hg Hg'].
  repeat split; try (apply Hn || apply Hp || apply Hg);
    rewrite ?Hn', ?Hp', ?Hg' in *; lia.
Qed.

Lemma navigation_keeps_index_valid_witness :
  validIndex (next (create carouselConfig 5)) /\
  validIndex (prev (create carouselConfig 5)) /\
  validIndex (goTo 7 (create carouselConfig 5)).
Proof.
  destruct (navigation_keeps_index_valid (create carouselConfig 5) 7)
    as (H1 & H2 & H3 & _).
  - unfold validIndex. simpl. lia.
  - repeat split; (apply H1 || apply H2 || apply H3).
Defined.

Lemma goTo_transition i c :
  isAnimating c = false ->
  i <> currentIndex c ->
  pending (goTo i c) =
    pending c ++
    [ {| fromX := trackTransform c;
         toX := - IZR (Z.max 0 (Z.min i (Z.of_nat (totalItems c) - 1))) *
                (itemWidth (config c) + itemGap (config c)) |} ].
Proof.
  intros Hidle Hne. unfold goTo. rewrite Hidle.
  apply Z.eqb_neq in Hne. rewrite Hne. cbn [orb].
  destruct (resetAutoplay_fields
              (updateCarousel true
                 (set_currentIndex (Z.max 0 (Z.min i (Z.of_nat (totalItems c) - 1))) c)))
    as (_ & _ & _ & _ & ->).
  reflexivity.
Qed.

(** C9: for a valid [i], [goTo i] on an idle controller sets [currentIndex]
    to [i].  When [i] is not the current index the call raises the animating
    flag and puts one more transition in flight, from the transform of the
    track to the resting position of item [i]; when it is, the call changes
    nothing.  Once the transitions in flight have completed, [currentIndex]
    is still [i] and [isAnimating] is false again. *)
Theorem goTo_reaches_index :
  forall c i,
    isAnimating c = false ->
    (0 <= i < Z.of_nat (totalItems c))%Z ->
    currentIndex (goTo i c) = i /\
    (i <> currentIndex c ->
     isAnimating (goTo i c) = true /\
     pending (goTo i c) =
       pending c ++
       [ {| fromX := trackTransform c;
            toX := - IZR i * (itemWidth (config c) + itemGap (config c)) |} ]) /\
    (i = currentIndex c -> goTo i c = c) /\
    currentIndex (completeTransitions (goTo i c)) = i /\
    isAnimating (completeTransitions (goTo i c)) = false /\
    pending (completeTransitions (goTo i c)) = [].
Proof.
  intros c i Hidle Hi. unfold completeTransitions.
  destruct (finishAll_fields (length (pending (goTo i c))) (goTo i c) eq_refl)
    as (_ & Hidx & _ & Hpend & Hanim).
  assert (Hclamp : Z.max 0 (Z.min i (Z.of_nat (totalItems c) - 1)) = i) by lia.
  destruct (Z.eq_dec i (currentIndex c)) as [-> | Hne].
  - rewrite goTo_same in *.
    split; [reflexivity|]. split; [intros H; contradiction|].
    split; [reflexivity|]. repeat split; auto.
    destruct (pending c) as [|a rest] eqn:E.
    + cbn. assumption.
    + apply Hanim. discriminate.
  - destruct (goTo_index i c Hidle Hne) as (Hgi & Hga & Hgp & _ & _).
    pose proof (goTo_transition i c Hidle Hne) as Hgt.
    rewrite Hclamp in Hgi, Hgt.
    split; [exact Hgi|]. split; [intros _; split; [exact Hga | exact Hgt]|].
    split; [intros H; contradiction|].
    repeat split; auto; congruence.
Qed.

Lemma goTo_reaches_index_witness :
  currentIndex (goTo 3 (create carouselConfig 5)) = 3%Z /\
  isAnimating (goTo 3 (create carouselConfig 5)) = true /\
  currentIndex (completeTransitions (goTo 3 (create carouselConfig 5))) = 3%Z /\
  isAnimating (completeTransitions (goTo 3 (create carouselConfig 5))) = false /\
  pending (completeTransitions (goTo 3 (create carouselConfig 5))) = [].
Proof.
  destruct (goTo_reaches_index (create carouselConfig 5) 3) as (H1 & H2 & _ & H4).
  - reflexivity.
  - simpl. lia.
  - split; [exact H1|]. split; [|exact H4].
    apply H2. discriminate.
Defined.

(** C8: on an idle controller [prev] retreats a valid index by one; at
    index 0 it wraps to the last item when [loop] is on and stays at 0 when
    it is off.  With 5 items at index 0 that is 4 and 0. *)
Theorem prev_retreats_wraps_or_clamps :
  forall c,
    isAnimating c = false ->
    validIndex c ->
    ((0 < currentIndex c)%Z -> currentIndex (prev c) = (currentIndex c - 1)%Z) /\
    (currentIndex c = 0%Z -> loop (config c) = true ->
     currentIndex (prev c) = (Z.of_nat (totalItems c) - 1)%Z) /\
    (currentIndex c = 0%Z -> loop (config c) = false ->
     currentIndex (prev c) = 0%Z) /\
    (totalItems c = 5%nat -> currentIndex c = 0%Z ->
     currentIndex (prev c) = if loop (config c) then 4%Z else 0%Z).
Proof.
  intros c Hidle Hv. unfold validIndex in Hv.
  destruct (prev_index c Hidle) as (-> & _).
  repeat split.
  - intros Hpos. destruct (currentIndex c - 1 <? 0)%Z eqn:E; [lia | reflexivity].
  - intros -> ->. reflexivity.
  - intros -> ->. reflexivity.
  - intros -> ->. cbn. reflexivity.
Qed.

Lemma prev_retreats_wraps_or_clamps_witness :
  currentIndex (prev (create carouselConfig 5)) = 4%Z /\
  currentIndex (prev (create noLoopConfig 5)) = 0%Z.
Proof.
  split.
  - apply (prev_retreats_wraps_or_clamps (create carouselConfig 5));
      try reflexivity. unfold validIndex. simpl. lia.
  - apply (prev_retreats_wraps_or_clamps (create noLoopConfig 5));
      try reflexivity. unfold validIndex. simpl. lia.
Defined.

(** *** Drag *)

Lemma handleDragEnd_unfold e c :
  isDragging c = true ->
  handleDragEnd e c =
  afterDrag
    (if gtb (Rabs (dragDistance c)) (dragThreshold (config c))
     then (if gtb (dragDistance c) 0
           then prev (set_isDragging false c)
           else next (set_isDragging false c))
     else updateCarousel true (set_isDragging false c)).
Proof.
  intros Hd. unfold handleDragEnd, afterDrag. rewrite Hd. reflexivity.
Qed.

Lemma prev_released_index c :
  currentIndex (prev (set_isDragging false c)) = currentIndex (prev c).
Proof.
  unfold prev. cbn [isAnimating set_isDragging].
  destruct (isAnimating c); [reflexivity|].
  rewrite !(proj1 (proj2 (resetAutoplay_fields _))). cbn.
  destruct (currentIndex c - 1 <? 0)%Z; reflexivity.
Qed.

Lemma next_released_index c :
  currentIndex (next (set_isDragging false c)) = currentIndex (next c).
Proof.
  unfold next. cbn [isAnimating set_isDragging].
  destruct (isAnimating c); [reflexivity|].
  rewrite !(proj1 (proj2 (resetAutoplay_fields _))). cbn.
  destruct (currentIndex c + 1 >=? Z.of_nat (totalItems c))%Z; reflexivity.
Qed.

(** C7: at the end of a drag by [d] with threshold [t], navigation happens
    only when [|d| > t]: then [prev()] is called for [d > 0] and [next()] for
    [d < 0]; for [|d| <= t], the tie [|d| = t] included, the track is sent
    back to the resting position of the current index, which does not
    change.  With [t = 50], [d = 60] calls [prev()] and [d = 40] keeps the
    index. *)
Theorem drag_end_threshold :
  forall e c,
    isDragging c = true ->
    let d := dragDistance c in
    let t := dragThreshold (config c) in
    let released := set_isDragging false c in
    (t < Rabs d -> 0 < d ->
     handleDragEnd e c = afterDrag (prev released) /\
     currentIndex (handleDragEnd e c) = currentIndex (prev c)) /\
    (t < Rabs d -> d < 0 ->
     handleDragEnd e c = afterDrag (next released) /\
     currentIndex (handleDragEnd e c) = currentIndex (next c)) /\
    (Rabs d <= t ->
     handleDragEnd e c = afterDrag (updateCarousel true released) /\
     currentIndex (handleDragEnd e c) = currentIndex c) /\
    (t = 50 -> d = 60 ->
     handleDragEnd e c = afterDrag (prev released) /\
     currentIndex (handleDragEnd e c) = currentIndex (prev c)) /\
    (t = 50 -> d = 40 -> currentIndex (handleDragEnd e c) = currentIndex c).
Proof.
  intros e c Hdrag d t released.
  pose proof (handleDragEnd_unfold e c Hdrag) as E. fold d t released in E.
  assert (Hprev : t < Rabs d -> 0 < d ->
                  handleDragEnd e c = afterDrag (prev released) /\
                  currentIndex (handleDragEnd e c) = currentIndex (prev c)).
  { intros Ht Hpos. rewrite E, (gtb_true _ _ Ht), (gtb_true _ _ Hpos).
    split; [reflexivity|].
    rewrite (proj1 (proj2 (afterDrag_fields _))). apply prev_released_index. }
  assert (Hback : Rabs d <= t ->
                  handleDragEnd e c = afterDrag (updateCarousel true released) /\
                  currentIndex (handleDragEnd e c) = currentIndex c).
  { intros Ht. rewrite E, (gtb_false _ _ Ht). split; [reflexivity|].
    rewrite (proj1 (proj2 (afterDrag_fields _))). reflexivity. }
  split; [exact Hprev|]. split; [|split; [exact Hback|split]].
  - intros Ht Hneg. rewrite E, (gtb_true _ _ Ht), (gtb_false d 0) by lra.
    split; [reflexivity|].
    rewrite (proj1 (proj2 (afterDrag_fields _))). apply next_released_index.
  - intros Ht Hd. apply Hprev; rewrite ?Ht, ?Hd; [rewrite Rabs_pos_eq by lra|]; lra.
  - intros Ht Hd. apply Hback. rewrite Ht, Hd. rewrite Rabs_pos_eq by lra. lra.
Qed.

Lemma dragged_fields d c :
  isAnimating c = false ->
  isDragging (dragged d c) = true /\
  dragDistance (dragged d c) = 100 + d - 100 /\
  config (dragged d c) = config c /\
  currentIndex (dragged d c) = currentIndex c.
Proof.
  intros Hidle.
  destruct c as [cfg i n a t dr sx cx dd tt pd nt]. cbn in Hidle. subst a.
  unfold dragged, handleDragMove, handleDragStart, stopAutoplay, pointerAt, pointerX, outcome. cbn.
  rewrite (proj2 (eqb_neq 100 0)) by lra. cbn.
  destruct t; cbn; destruct (eqb (100 + d) 0); cbn; repeat split; reflexivity.
Qed.

Lemma drag_end_threshold_witness :
  currentIndex (handleDragEnd (pointerAt 160) (dragged 60 (create carouselConfig 5))) =
    currentIndex (prev (dragged 60 (create carouselConfig 5))) /\
  currentIndex (handleDragEnd (pointerAt 140) (dragged 40 (create carouselConfig 5))) =
    currentIndex (dragged 40 (create carouselConfig 5)) /\
  currentIndex (handleDragEnd (pointerAt 150) (dragged 50 (create carouselConfig 5))) =
    currentIndex (dragged 50 (create carouselConfig 5)).
Proof.
  destruct (dragged_fields 60 (create carouselConfig 5) eq_refl) as (D1 & D2 & D3 & _).
  destruct (dragged_fields 40 (create carouselConfig 5) eq_refl) as (E1 & E2 & E3 & _).
  destruct (dragged_fields 50 (create carouselConfig 5) eq_refl) as (F1 & F2 & F3 & _).
  destruct (drag_end_threshold (pointerAt 160) (dragged 60 (create carouselConfig 5)) D1)
    as (_ & _ & _ & H60 & _).
  destruct (drag_end_threshold (pointerAt 140) (dragged 40 (create carouselConfig 5)) E1)
    as (_ & _ & _ & _ & H40).
  destruct (drag_end_threshold (pointerAt 150) (dragged 50 (create carouselConfig 5)) F1)
    as (_ & _ & H50 & _).
  split; [|split].
  - apply H60; [rewrite D3; reflexivity | rewrite D2; lra].
  - apply H40; [rewrite E3; reflexivity | rewrite E2; lra].
  - apply H50. rewrite F2, F3. cbn. rewrite Rabs_pos_eq by lra. lra.
Defined.

(** *** No items *)




End CarouselFacts.

(** ** Further properties of the particle field *)

Module ParticlesMore.
Import Num NumFacts Particles ParticlesFacts.
Open Scope R_scope.

Lemma Rabs_le_between a b : Rabs a <= b -> - b <= a <= b.
Proof.
  intros H. pose proof (Rle_abs a). pose proof (Rle_abs (- a)) as Hn.
  rewrite Rabs_Ropp in Hn. lra.
Qed.

(** *** The source of draws *)

Lemma newParticle_random cfg cv g :
  draws (snd (newParticle cfg cv g)) = draws g /\
  cursor (snd (newParticle cfg cv g)) = (cursor g + 6)%nat.
Proof.
  unfold newParticle, random. cbn. split; [reflexivity | lia].
Qed.

Lemma unit_draws_ext g g' : draws g' = draws g -> unit_draws g -> unit_draws g'.
Proof. unfold unit_draws. intros -> H. exact H. Qed.

Lemma bounce_random pos limit v g :
  draws (snd (bounce pos limit v g)) = draws g /\
  cursor (snd (bounce pos limit v g)) =
    (cursor g + if outside pos limit then 1 else 0)%nat.
Proof.
  unfold bounce, outside.
  destruct (ltb pos 0 || gtb pos limit); cbn; split; (reflexivity || lia).
Qed.

Lemma update_random cfg cv m p g :
  snd (update cfg cv m p g) =
  snd (bounce (y p + vy p) (height cv) (vy p)
         (snd (bounce (x p + vx p) (width cv) (vx p) g))).
Proof.
  unfold update.
  destruct (bounce _ _ _ g) as [vx1 g1]. cbn [snd].
  destruct (bounce _ _ _ g1) as [vy1 g2]. cbn [snd].
  destruct (mouseInteraction _ _ _ _ _ _) as [vx3 vy3]. reflexivity.
Qed.

(** *** Construction *)

(** X1: the constructor, on draws in [0, 1) and a canvas of non-negative
    size, makes a particle inside the canvas, with each velocity component
    within half the base speed, a radius between 80% and 120% of the base
    radius and an opacity in [0.3, 1); it takes six draws. *)
Theorem newParticle_ranges :
  forall cfg cv g,
    unit_draws g ->
    0 <= width cv -> 0 <= height cv ->
    0 <= particleSpeed cfg -> 0 <= particleSize cfg ->
    let p := fst (newParticle cfg cv g) in
    in_bounds cv p /\
    Rabs (vx p) <= particleSpeed cfg / 2 /\
    Rabs (vy p) <= particleSpeed cfg / 2 /\
    particleSize cfg * (8 / 10) <= size p <= particleSize cfg * (12 / 10) /\
    3 / 10 <= opacity p < 1 /\
    cursor (snd (newParticle cfg cv g)) = (cursor g + 6)%nat.
Proof.
  intros cfg cv g Hu Hw Hh Hs Hz p.
  split; [|split; [|split; [|split; [|split]]]].
  - unfold in_bounds, p. cbn.
    pose proof (Hu (cursor g)). pose proof (Hu (S (cursor g))).
    repeat split; nra.
  - unfold p. cbn. pose proof (Hu (S (S (cursor g)))).
    apply Rabs_le. split; nra.
  - unfold p. cbn. pose proof (Hu (S (S (S (cursor g))))).
    apply Rabs_le. split; nra.
  - unfold p. cbn. pose proof (Hu (S (S (S (S (cursor g)))))).
    split; nra.
  - unfold p. cbn. pose proof (Hu (S (S (S (S (S (cursor g))))))).
    split; lra.
  - apply newParticle_random.
Qed.

Lemma newParticle_ranges_witness :
  let p := fst (newParticle config canvas0 random0) in
  in_bounds canvas0 p /\
  Rabs (vx p) <= particleSpeed config / 2 /\
  Rabs (vy p) <= particleSpeed config / 2 /\
  particleSize config * (8 / 10) <= size p <= particleSize config * (12 / 10) /\
  3 / 10 <= opacity p < 1 /\
  cursor (snd (newParticle config canvas0 random0)) = (cursor random0 + 6)%nat.
Proof.
  apply (newParticle_ranges config canvas0 random0).
  - intros n. simpl. unfold draws0. destruct n as [|[|[|n]]]; lra.
  - simpl; lra.
  - simpl; lra.
  - simpl; lra.
  - simpl; lra.
Defined.

Lemma pushParticles_cons n cfg cv g :
  pushParticles (S n) cfg cv g =
  (fst (newParticle cfg cv g) ::
     fst (pushParticles n cfg cv (snd (newParticle cfg cv g))),
   snd (pushParticles n cfg cv (snd (newParticle cfg cv g)))).
Proof.
  cbn [pushParticles].
  destruct (newParticle cfg cv g) as [p g1]. cbn [fst snd].
  destruct (pushParticles n cfg cv g1) as [ps g2]. reflexivity.
Qed.

Lemma pushParticles_spec n cfg cv : forall g,
  unit_draws g ->
  0 <= width cv -> 0 <= height cv ->
  length (fst (pushParticles n cfg cv g)) = n /\
  Forall (in_bounds cv) (fst (pushParticles n cfg cv g)) /\
  draws (snd (pushParticles n cfg cv g)) = draws g /\
  cursor (snd (pushParticles n cfg cv g)) = (cursor g + 6 * n)%nat.
Proof.
  induction n as [|n IH]; intros g Hu Hw Hh.
  - cbn. repeat split; auto.
  - rewrite pushParticles_cons. cbn [fst snd length].
    destruct (newParticle_random cfg cv g) as [Hd Hc].
    destruct (IH (snd (newParticle cfg cv g))
                (unit_draws_ext _ _ Hd Hu) Hw Hh) as (Hl & Hb & Hd' & Hc').
    repeat split.
    + rewrite Hl. reflexivity.
    + constructor; [|exact Hb].
      unfold in_bounds. cbn.
      pose proof (Hu (cursor g)). pose proof (Hu (S (cursor g))).
      repeat split; nra.
    + congruence.
    + rewrite Hc', Hc. lia.
Qed.

Lemma initParticles_ready cfg cv g :
  initParticles true cfg cv g =
  Returned (pushParticles (Z.to_nat (particleCount cfg)) cfg cv g).
Proof. unfold initParticles. cbn [negb]. rewrite andb_false_r. reflexivity. Qed.

Lemma initParticles_spec_aux cfg cv g :
  unit_draws g ->
  0 <= width cv -> 0 <= height cv ->
  length (fst (outcome (initParticles true cfg cv g))) = Z.to_nat (particleCount cfg) /\
  Forall (in_bounds cv) (fst (outcome (initParticles true cfg cv g))).
Proof.
  intros Hu Hw Hh. rewrite initParticles_ready. cbn [outcome].
  destruct (pushParticles_spec (Z.to_nat (particleCount cfg)) cfg cv g Hu Hw Hh)
    as (Hl & Hb & _). split; assumption.
Qed.

(** X2: once the script has been evaluated, [initParticles] returns with
    [particleCount] particles, none for a count of zero or less, all of them
    inside the canvas, and takes six draws for each. *)
Theorem initParticles_count_and_bounds :
  forall cfg cv g,
    unit_draws g ->
    0 <= width cv -> 0 <= height cv ->
    threw (initParticles true cfg cv g) = false /\
    length (fst (outcome (initParticles true cfg cv g))) =
      Z.to_nat (particleCount cfg) /\
    ((particleCount cfg <= 0)%Z ->
     fst (outcome (initParticles true cfg cv g)) = []) /\
    Forall (in_bounds cv) (fst (outcome (initParticles true cfg cv g))) /\
    cursor (snd (outcome (initParticles true cfg cv g))) =
      (cursor g + 6 * Z.to_nat (particleCount cfg))%nat.
Proof.
  intros cfg cv g Hu Hw Hh. rewrite initParticles_ready. cbn [outcome threw].
  destruct (pushParticles_spec (Z.to_nat (particleCount cfg)) cfg cv g Hu Hw Hh)
    as (Hl & Hb & _ & Hc).
  repeat split; auto.
  intros Hneg. replace (Z.to_nat (particleCount cfg)) with 0%nat by lia.
  reflexivity.
Qed.

Lemma initParticles_count_and_bounds_witness :
  length (fst (outcome (initParticles true config canvas0 random0))) = 100%nat /\
  Forall (in_bounds canvas0) (fst (outcome (initParticles true config canvas0 random0))).
Proof.
  destruct (initParticles_count_and_bounds config canvas0 random0)
    as (_ & Hl & _ & Hb & _).
  - intros n. simpl. unfold draws0. destruct n as [|[|[|n]]]; lra.
  - simpl; lra.
  - simpl; lra.
  - split; [exact Hl | exact Hb].
Defined.

(** *** Resizing *)

Lemma reflectDimension_floor dflt v :
  0 <= v < 2147483648 ->
  reflectDimension dflt v = Zfloor v /\ (0 <= Zfloor v < 2147483648)%Z.
Proof.
  intros [H0 H1].
  assert (Hf : (0 <= Zfloor v < 2147483648)%Z).
  { pose proof (Zfloor_bound v) as [Hb _]. split.
    - apply (Zfloor_lub 0). simpl. exact H0.
    - apply lt_IZR. lra. }
  split; [|exact Hf].
  unfold reflectDimension, toUnsignedLong.
  rewrite ltb_false by assumption.
  rewrite Z.mod_small by lia.
  destruct (2147483647 <? Zfloor v)%Z eqn:E; [|reflexivity].
  apply Z.ltb_lt in E. lia.
Qed.

Lemma resizeCanvas_fields rnd ready rect cfg g :
  0 <= rect_width rect < 2147483648 ->
  0 <= rect_height rect < 2147483648 ->
  let w := Zfloor (rect_width rect) in
  let h := Zfloor (rect_height rect) in
  let cv := {| width := IZR w; height := IZR h |} in
  let n := Zfloor (scaledCount rnd w h) in
  field_canvas (fst (outcome (resizeCanvas rnd ready rect cfg g))) = cv /\
  field_config (fst (outcome (resizeCanvas rnd ready rect cfg g))) =
    set_particleCount n cfg /\
  field_particles (fst (outcome (resizeCanvas rnd ready rect cfg g))) =
    fst (outcome (initParticles ready (set_particleCount n cfg) cv g)) /\
  snd (outcome (resizeCanvas rnd ready rect cfg g)) =
    snd (outcome (initParticles ready (set_particleCount n cfg) cv g)) /\
  threw (resizeCanvas rnd ready rect cfg g) =
    threw (initParticles ready (set_particleCount n cfg) cv g).
Proof.
  intros Hw Hh. cbv zeta. unfold resizeCanvas, scaledCount.
  rewrite (proj1 (reflectDimension_floor 300 _ Hw)).
  rewrite (proj1 (reflectDimension_floor 150 _ Hh)).
  cbn [width height].
  destruct (initParticles _ _ _ g) as [[ps g1] | [ps g1]]; repeat split.
Qed.

Lemma accurate_between rnd v :
  accurate rnd ->
  1 / 1000000000000 <= v <= 1000000000000000000000000000000 ->
  9999 / 10000 * v <= rnd v <= 10001 / 10000 * v.
Proof.
  intros [_ Herr] Hv. pose proof (Rabs_le_between _ _ (Herr v Hv)). lra.
Qed.

Lemma sqrt_above c X : 0 <= c -> c * c <= X -> c <= sqrt X.
Proof.
  intros Hc H. rewrite <- (sqrt_square c Hc). apply sqrt_le_1_alt. exact H.
Qed.

Lemma sqrt_below c X : 0 <= c -> X <= c * c -> sqrt X <= c.
Proof.
  intros Hc H. rewrite <- (sqrt_square c Hc). apply sqrt_le_1_alt. exact H.
Qed.

Lemma Zfloor_0 : Zfloor 0 = 0%Z.
Proof. apply Zfloor_eq. simpl. lra. Qed.

(** With no area every intermediate result is 0. *)
Lemma scaledCount_zero rnd w h :
  accurate rnd -> (w * h = 0)%Z -> scaledCount rnd w h = 0.
Proof.
  intros [H0 _] Hz. unfold scaledCount.
  rewrite <- (mult_IZR w h), Hz, H0.
  replace (0 / (1920 * 1080)) with 0 by (field; lra).
  rewrite H0, sqrt_0, H0, Rmult_0_r, H0. reflexivity.
Qed.

(** With an area of at least one pixel the rounded result is within 0.04 %
    below and 0.06 % above the exact [100 * sqrt (area / (1920 * 1080))]. *)
Lemma scaledCount_bounds rnd w h :
  accurate rnd ->
  (0 <= w < 2147483648)%Z -> (0 <= h < 2147483648)%Z ->
  (1 <= w * h)%Z ->
  let S := sqrt (IZR (w * h) / (1920 * 1080)) in
  9996 / 100 * S <= scaledCount rnd w h <= 10006 / 100 * S.
Proof.
  intros Hacc Hw Hh Harea S. subst S. unfold scaledCount.
  rewrite <- (mult_IZR w h).
  set (A := IZR (w * h)) in *.
  assert (HA : 1 <= A <= 4611686018427387904).
  { unfold A. split.
    - apply (IZR_le 1). exact Harea.
    - apply IZR_le. nia. }
  replace (1920 * 1080) with 2073600 in * by lra.
  set (X := A / 2073600) in *.
  set (S := sqrt X).
  assert (HX : 1 / 2073600 <= X <= 2230000000000) by (unfold X; lra).
  assert (HS0 : 0 <= S) by apply sqrt_pos.
  assert (HSS : S * S = X) by (unfold S; apply sqrt_sqrt; lra).
  assert (HSlo : 1 / 1440 <= S) by (apply sqrt_above; lra).
  assert (HShi : S <= 10000000) by (apply sqrt_below; lra).
  pose proof (accurate_between rnd A Hacc) as Ha.
  assert (Ha' : 9999 / 10000 * A <= rnd A <= 10001 / 10000 * A) by (apply Ha; lra).
  clear Ha. set (a := rnd A) in *.
  pose proof (accurate_between rnd (a / 2073600) Hacc) as Hq.
  assert (Hq' : 9999 / 10000 * (a / 2073600) <= rnd (a / 2073600)
                <= 10001 / 10000 * (a / 2073600)) by (apply Hq; lra).
  clear Hq. set (q := rnd (a / 2073600)) in *.
  assert (HqX : 9998 / 10000 * X <= q <= 10003 / 10000 * X) by (unfold X; lra).
  assert (Hr : 9998 / 10000 * S <= sqrt q <= 10003 / 10000 * S).
  { split.
    - apply sqrt_above; [lra|].
      replace (9998 / 10000 * S * (9998 / 10000 * S))
        with (9998 / 10000 * (9998 / 10000) * (S * S)) by ring.
      rewrite HSS. lra.
    - apply sqrt_below; [lra|].
      replace (10003 / 10000 * S * (10003 / 10000 * S))
        with (10003 / 10000 * (10003 / 10000) * (S * S)) by ring.
      rewrite HSS. lra. }
  set (r := sqrt q) in *.
  pose proof (accurate_between rnd r Hacc) as Hs.
  assert (Hs' : 9999 / 10000 * r <= rnd r <= 10001 / 10000 * r) by (apply Hs; lra).
  clear Hs. set (s := rnd r) in *.
  pose proof (accurate_between rnd (100 * s) Hacc) as Ht.
  assert (Ht' : 9999 / 10000 * (100 * s) <= rnd (100 * s)
                <= 10001 / 10000 * (100 * s)) by (apply Ht; lra).
  lra.
Qed.

Lemma scaledCount_nonneg rnd w h :
  accurate rnd ->
  (0 <= w < 2147483648)%Z -> (0 <= h < 2147483648)%Z ->
  0 <= scaledCount rnd w h.
Proof.
  intros Hacc Hw Hh.
  destruct (Z.eq_dec (w * h) 0) as [E | E].
  - rewrite (scaledCount_zero rnd w h Hacc E). lra.
  - assert (Harea : (1 <= w * h)%Z) by nia.
    pose proof (scaledCount_bounds rnd w h Hacc Hw Hh Harea) as H. cbv zeta in H.
    pose proof (sqrt_pos (IZR (w * h) / (1920 * 1080))). lra.
Qed.

(** The count reaches 1 exactly from 208 pixels on: 207 pixels give at most
    0.9999 and 208 at least 1.001, rounding included. *)
Lemma scaledCount_threshold rnd w h :
  accurate rnd ->
  (0 <= w < 2147483648)%Z -> (0 <= h < 2147483648)%Z ->
  (1 <= Zfloor (scaledCount rnd w h))%Z <-> (208 <= w * h)%Z.
Proof.
  intros Hacc Hw Hh.
  pose proof (Zfloor_bound (scaledCount rnd w h)) as Hb.
  split.
  - intros H1. apply IZR_le in H1.
    destruct (Z_lt_le_dec (w * h) 208) as [Hlt | Hge]; [|exact Hge]. exfalso.
    destruct (Z.eq_dec (w * h) 0) as [E | E].
    + rewrite (scaledCount_zero rnd w h Hacc E) in Hb, H1. simpl in H1. lra.
    + assert (Harea : (1 <= w * h)%Z) by nia.
      pose proof (scaledCount_bounds rnd w h Hacc Hw Hh Harea) as [_ Hu].
      assert (HA : IZR (w * h) <= 207) by (apply (IZR_le _ 207); lia).
      assert (HS : sqrt (IZR (w * h) / (1920 * 1080)) <= 9992 / 1000000).
      { apply sqrt_below; [lra|].
        replace (1920 * 1080) with 2073600 by lra. lra. }
      lra.
  - intros Hge.
    assert (Harea : (1 <= w * h)%Z) by lia.
    pose proof (scaledCount_bounds rnd w h Hacc Hw Hh Harea) as [Hl _].
    assert (HA : 208 <= IZR (w * h)) by (apply (IZR_le 208); lia).
    assert (HS : 10015 / 1000000 <= sqrt (IZR (w * h) / (1920 * 1080))).
    { apply sqrt_above; [lra|].
      replace (1920 * 1080) with 2073600 by lra. lra. }
    apply (Zfloor_lub 1). simpl. lra.
Qed.

Lemma accurate_exact : accurate exact.
Proof.
  split; [reflexivity|]. intros v Hv. unfold exact.
  replace (v - v) with 0 by ring. rewrite Rabs_R0. lra.
Qed.

(** X3: called once the script has been evaluated, on a rectangle whose
    sides are in [0, 2^31), [resizeCanvas] returns.  The canvas gets the
    sides with their fractions dropped; the particle count is the floor of
    the rounded [100 * sqrt (area / (1920 * 1080))] of that canvas, so it is
    never negative and lies between 99.96 times the exact square root minus
    1 and 100.06 times it; and the collection is replaced by that many
    particles, all inside the new canvas. *)
Theorem resizeCanvas_count :
  forall rnd rect cfg g,
    accurate rnd ->
    unit_draws g ->
    0 <= rect_width rect < 2147483648 ->
    0 <= rect_height rect < 2147483648 ->
    let f := fst (outcome (resizeCanvas rnd true rect cfg g)) in
    let count := particleCount (field_config f) in
    let w := Zfloor (rect_width rect) in
    let h := Zfloor (rect_height rect) in
    let S := sqrt (IZR (w * h) / (1920 * 1080)) in
    threw (resizeCanvas rnd true rect cfg g) = false /\
    field_canvas f = {| width := IZR w; height := IZR h |} /\
    9996 / 100 * S - 1 < IZR count <= 10006 / 100 * S /\
    (0 <= count)%Z /\
    length (field_particles f) = Z.to_nat count /\
    Forall (in_bounds (field_canvas f)) (field_particles f).
Proof.
  intros rnd rect cfg g Hacc Hu Hrw Hrh f count w h S.
  destruct (resizeCanvas_fields rnd true rect cfg g Hrw Hrh)
    as (Hcv & Hcfg & Hps & _ & Hthrew).
  cbv zeta in *. fold f w h in Hcv, Hcfg, Hps, Hthrew.
  destruct (reflectDimension_floor 300 _ Hrw) as [_ Hw].
  destruct (reflectDimension_floor 150 _ Hrh) as [_ Hh]. fold w in Hw. fold h in Hh.
  assert (Hcount : count = Zfloor (scaledCount rnd w h)).
  { unfold count. rewrite Hcfg. reflexivity. }
  pose proof (Zfloor_bound (scaledCount rnd w h)) as Hb.
  pose proof (scaledCount_nonneg rnd w h Hacc Hw Hh) as Hnn.
  assert (HS0 : 0 <= S) by apply sqrt_pos.
  assert (Hbounds : 9996 / 100 * S <= scaledCount rnd w h <= 10006 / 100 * S).
  { destruct (Z.eq_dec (w * h) 0) as [E | E].
    - rewrite (scaledCount_zero rnd w h Hacc E).
      assert (S = 0).
      { unfold S. rewrite E. replace (0 / (1920 * 1080)) with 0 by (field; lra).
        apply sqrt_0. }
      lra.
    - assert (Harea : (1 <= w * h)%Z) by nia.
      pose proof (scaledCount_bounds rnd w h Hacc Hw Hh Harea) as H. cbv zeta in H.
      fold S in H. lra. }
  destruct (initParticles_spec_aux (set_particleCount (Zfloor (scaledCount rnd w h)) cfg)
              {| width := IZR w; height := IZR h |} g Hu) as (Hl & Hbd).
  { cbn. apply (IZR_le 0). lia. }
  { cbn. apply (IZR_le 0). lia. }
  split; [|split; [|split; [|split; [|split]]]].
  - rewrite Hthrew, initParticles_ready. reflexivity.
  - exact Hcv.
  - rewrite Hcount. lra.
  - rewrite Hcount. apply (Zfloor_lub 0). simpl. exact Hnn.
  - rewrite Hps, Hl, Hcount. reflexivity.
  - rewrite Hps, Hcv. exact Hbd.
Qed.

Lemma resizeCanvas_count_witness :
  let f := fst (outcome (resizeCanvas exact true
                  {| rect_width := 1920; rect_height := 1080 |} config random0)) in
  (0 <= particleCount (field_config f))%Z /\
  length (field_particles f) = Z.to_nat (particleCount (field_config f)).
Proof.
  destruct (resizeCanvas_count exact {| rect_width := 1920; rect_height := 1080 |}
              config random0) as (_ & _ & _ & H1 & H2 & _).
  - apply accurate_exact.
  - intros n. simpl. unfold draws0. destruct n as [|[|[|n]]]; lra.
  - simpl; lra.
  - simpl; lra.
  - split; [exact H1 | exact H2].
Defined.

(** X4: the count follows the linear scale of the canvas, whether the call
    returns or throws.  A canvas of 1920 k by 1080 k pixels gets a count
    above 99.96 k - 1 and of at most 100.06 k: 99 or 100 at the reference
    size and 49 or 50 at half of it (a quarter of the area), depending on
    the rounding, whatever fraction of a pixel the rectangle adds.  A rectangle less than one pixel wide or high gives a
    canvas without area, a count of 0 and an empty collection, and the call
    does not throw. *)
Theorem resizeCanvas_scaling :
  forall rnd ready cfg g,
    accurate rnd ->
    let count rect :=
      particleCount (field_config (fst (outcome (resizeCanvas rnd ready rect cfg g)))) in
    (forall k : Z,
       (0 <= k <= 1000000)%Z ->
       9996 / 100 * IZR k - 1 <
         IZR (count {| rect_width := IZR (1920 * k); rect_height := IZR (1080 * k) |})
         <= 10006 / 100 * IZR k) /\
    (forall rw rh,
       1920 <= rw < 1921 -> 1080 <= rh < 1081 ->
       count {| rect_width := rw; rect_height := rh |} = 99%Z \/
       count {| rect_width := rw; rect_height := rh |} = 100%Z) /\
    (forall rw rh,
       960 <= rw < 961 -> 540 <= rh < 541 ->
       count {| rect_width := rw; rect_height := rh |} = 49%Z \/
       count {| rect_width := rw; rect_height := rh |} = 50%Z) /\
    (forall rect,
       0 <= rect_width rect < 2147483648 ->
       0 <= rect_height rect < 2147483648 ->
       rect_width rect < 1 \/ rect_height rect < 1 ->
       count rect = 0%Z /\
       threw (resizeCanvas rnd ready rect cfg g) = false /\
       field_particles (fst (outcome (resizeCanvas rnd ready rect cfg g))) = []).
Proof.
  intros rnd ready cfg g Hacc count.
  assert (Hint : forall w h : Z,
            (0 <= w < 2147483648)%Z -> (0 <= h < 2147483648)%Z ->
            forall rect,
              IZR w <= rect_width rect < IZR w + 1 ->
              IZR h <= rect_height rect < IZR h + 1 ->
              count rect = Zfloor (scaledCount rnd w h)).
  { intros w h Hw Hh rect Hrw Hrh. unfold count.
    assert (Ew : Zfloor (rect_width rect) = w) by (apply Zfloor_eq; exact Hrw).
    assert (Eh : Zfloor (rect_height rect) = h) by (apply Zfloor_eq; exact Hrh).
    assert (Hw' : 0 <= rect_width rect < 2147483648).
    { destruct Hw as [Hw0 Hw1]. apply IZR_le in Hw0.
      assert (IZR w + 1 <= 2147483648)
        by (rewrite <- (plus_IZR w 1); apply IZR_le; lia).
      simpl in Hw0. lra. }
    assert (Hh' : 0 <= rect_height rect < 2147483648).
    { destruct Hh as [Hh0 Hh1]. apply IZR_le in Hh0.
      assert (IZR h + 1 <= 2147483648)
        by (rewrite <- (plus_IZR h 1); apply IZR_le; lia).
      simpl in Hh0. lra. }
    destruct (resizeCanvas_fields rnd ready rect cfg g Hw' Hh') as (_ & -> & _).
    cbn [particleCount set_particleCount]. rewrite Ew, Eh. reflexivity. }
  assert (Hscale : forall k : Z,
            (0 <= k <= 1000000)%Z ->
            9996 / 100 * IZR k - 1 < IZR (Zfloor (scaledCount rnd (1920 * k) (1080 * k)))
              <= 10006 / 100 * IZR k).
  { intros k Hk.
    pose proof (Zfloor_bound (scaledCount rnd (1920 * k) (1080 * k))) as Hb.
    assert (Hk0 : 0 <= IZR k) by (apply (IZR_le 0); lia).
    destruct (Z.eq_dec k 0) as [-> | Hne].
    - rewrite (scaledCount_zero rnd _ _ Hacc) in * by reflexivity.
      simpl in *. lra.
    - assert (HS : sqrt (IZR (1920 * k * (1080 * k)) / (1920 * 1080)) = IZR k).
      { replace (IZR (1920 * k * (1080 * k)) / (1920 * 1080)) with (IZR k * IZR k).
        - apply sqrt_square. exact Hk0.
        - rewrite !mult_IZR. field. }
      pose proof (scaledCount_bounds rnd (1920 * k) (1080 * k) Hacc) as H.
      cbv zeta in H. rewrite HS in H.
      assert (H' : 9996 / 100 * IZR k <= scaledCount rnd (1920 * k) (1080 * k)
                   <= 10006 / 100 * IZR k) by (apply H; nia).
      lra. }
  split; [|split; [|split]].
  - intros k Hk.
    rewrite (Hint (1920 * k)%Z (1080 * k)%Z) by (cbn [rect_width rect_height]; lia || lra).
    apply Hscale. exact Hk.
  - intros rw rh Hrw Hrh.
    rewrite (Hint 1920%Z 1080%Z) by (cbn [rect_width rect_height]; lia || (simpl; lra)).
    pose proof (Hscale 1%Z) as H1. simpl in H1.
    assert (H : 9996 / 100 * 1 - 1 < IZR (Zfloor (scaledCount rnd 1920 1080))
                <= 10006 / 100 * 1) by (apply H1; lia).
    set (n := Zfloor (scaledCount rnd 1920 1080)) in *.
    assert (99 <= n <= 100)%Z.
    { split.
      - assert (98 < IZR n) by lra. apply (lt_IZR 98) in H0. lia.
      - assert (IZR n < 101) by lra. apply (lt_IZR _ 101) in H0. lia. }
    lia.
  - intros rw rh Hrw Hrh.
    rewrite (Hint 960%Z 540%Z) by (cbn [rect_width rect_height]; lia || (simpl; lra)).
    pose proof (Zfloor_bound (scaledCount rnd 960 540)) as Hb.
    assert (HS : sqrt (IZR (960 * 540) / (1920 * 1080)) = 1 / 2).
    { replace (IZR (960 * 540) / (1920 * 1080)) with (1 / 2 * (1 / 2))
        by (simpl; field).
      apply sqrt_square. lra. }
    pose proof (scaledCount_bounds rnd 960 540 Hacc) as H.
    cbv zeta in H. rewrite HS in H.
    assert (H' : 9996 / 100 * (1 / 2) <= scaledCount rnd 960 540
                 <= 10006 / 100 * (1 / 2)) by (apply H; lia).
    set (n := Zfloor (scaledCount rnd 960 540)) in *.
    assert (49 <= n <= 50)%Z.
    { split.
      - assert (48 < IZR n) by lra. apply (lt_IZR 48) in H0. lia.
      - assert (IZR n < 51) by lra. apply (lt_IZR _ 51) in H0. lia. }
    lia.
  - intros rect Hrw Hrh Hsmall. unfold count.
    destruct (resizeCanvas_fields rnd ready rect cfg g Hrw Hrh)
      as (_ & Hcfg & Hps & _ & Hthrew).
    cbv zeta in *.
    assert (Hz : (Zfloor (rect_width rect) * Zfloor (rect_height rect) = 0)%Z).
    { destruct Hsmall as [H | H].
      - rewrite (Zfloor_eq 0 (rect_width rect)) by (simpl; lra). reflexivity.
      - rewrite (Zfloor_eq 0 (rect_height rect)) by (simpl; lra). lia. }
    rewrite (scaledCount_zero rnd _ _ Hacc Hz), Zfloor_0 in Hcfg, Hps, Hthrew.
    rewrite Hcfg, Hps, Hthrew. unfold initParticles. cbn. repeat split.
Qed.

Lemma resizeCanvas_scaling_witness :
  9996 / 100 * IZR 3 - 1 <
    IZR (particleCount (field_config (fst (outcome (resizeCanvas exact true
           {| rect_width := IZR (1920 * 3); rect_height := IZR (1080 * 3) |}
           config random0)))))
    <= 10006 / 100 * IZR 3 /\
  field_particles (fst (outcome (resizeCanvas exact false
    {| rect_width := 1 / 2; rect_height := 1080 |} config random0))) = [].
Proof.
  destruct (resizeCanvas_scaling exact true config random0 accurate_exact)
    as (Hk & _ & _ & _).
  destruct (resizeCanvas_scaling exact false config random0 accurate_exact)
    as (_ & _ & _ & Hzero).
  split.
  - apply Hk. lia.
  - apply (Hzero {| rect_width := 1 / 2; rect_height := 1080 |}).
    + simpl; lra.
    + simpl; lra.
    + left. simpl. lra.
Defined.

(** X29: the script calls [resizeCanvas()] while it is evaluated, before
    [class Particle] is initialised.  On a rectangle whose sides are in
    [0, 2^31) that call throws exactly when the canvas has room for at least
    one particle, that is when its area in whole pixels is at least 208;
    either way it leaves the canvas resized, the count updated and the
    collection empty, and takes no draw. *)
Theorem resizeCanvas_before_class :
  forall rnd rect cfg g,
    accurate rnd ->
    0 <= rect_width rect < 2147483648 ->
    0 <= rect_height rect < 2147483648 ->
    let r := resizeCanvas rnd false rect cfg g in
    let w := Zfloor (rect_width rect) in
    let h := Zfloor (rect_height rect) in
    (threw r = true <-> (208 <= w * h)%Z) /\
    (threw r = true <-> (1 <= particleCount (field_config (fst (outcome r))))%Z) /\
    field_particles (fst (outcome r)) = [] /\
    field_canvas (fst (outcome r)) = {| width := IZR w; height := IZR h |} /\
    snd (outcome r) = g.
Proof.
  intros rnd rect cfg g Hacc Hrw Hrh r w h.
  destruct (resizeCanvas_fields rnd false rect cfg g Hrw Hrh)
    as (Hcv & Hcfg & Hps & Hg & Hthrew).
  cbv zeta in *. fold r w h in Hcv, Hcfg, Hps, Hg, Hthrew.
  destruct (reflectDimension_floor 300 _ Hrw) as [_ Hw].
  destruct (reflectDimension_floor 150 _ Hrh) as [_ Hh]. fold w in Hw. fold h in Hh.
  set (n := Zfloor (scaledCount rnd w h)) in *.
  assert (Hinit : initParticles false (set_particleCount n cfg)
                    {| width := IZR w; height := IZR h |} g =
                  if (0 <? Z.to_nat n)%nat then Threw ([], g)
                  else Returned ([], g)).
  { unfold initParticles. cbn [particleCount set_particleCount negb].
    rewrite andb_true_r.
    destruct (0 <? Z.to_nat n)%nat eqn:E; [reflexivity|].
    apply Nat.ltb_ge in E. replace (Z.to_nat n) with 0%nat by lia. reflexivity. }
  assert (Hthrow : threw r = true <-> (1 <= n)%Z).
  { rewrite Hthrew, Hinit.
    destruct (0 <? Z.to_nat n)%nat eqn:E; cbn [threw].
    - apply Nat.ltb_lt in E. split; [lia | reflexivity].
    - apply Nat.ltb_ge in E. split; [discriminate | lia]. }
  split; [rewrite Hthrow; apply scaledCount_threshold; assumption|].
  split; [rewrite Hcfg; exact Hthrow|].
  split; [|split; [exact Hcv|]].
  - rewrite Hps, Hinit. destruct (0 <? Z.to_nat n)%nat; reflexivity.
  - rewrite Hg, Hinit. destruct (0 <? Z.to_nat n)%nat; reflexivity.
Qed.

Lemma resizeCanvas_before_class_witness :
  threw (resizeCanvas exact false {| rect_width := 1920; rect_height := 1080 |}
           config random0) = true.
Proof.
  destruct (resizeCanvas_before_class exact {| rect_width := 1920; rect_height := 1080 |}
              config random0 accurate_exact) as ([_ H1] & _).
  - simpl; lra.
  - simpl; lra.
  - apply H1.
    rewrite (Zfloor_eq 1920 (rect_width {| rect_width := 1920; rect_height := 1080 |}))
      by (simpl; lra).
    rewrite (Zfloor_eq 1080 (rect_height {| rect_width := 1920; rect_height := 1080 |}))
      by (simpl; lra).
    lia.
Defined.

(** *** Frames *)

Lemma step_length cfg cv m ps : forall g,
  length (fst (step cfg cv m ps g)) = length ps.
Proof.
  induction ps as [|p ps IH]; intros g; [reflexivity|].
  rewrite step_cons. cbn [length]. rewrite IH. reflexivity.
Qed.

Lemma step_snd_cons cfg cv m p ps g :
  snd (step cfg cv m (p :: ps) g) = snd (step cfg cv m ps (snd (update cfg cv m p g))).
Proof.
  simpl. destruct (update cfg cv m p g) as [p' g1]. cbn [snd].
  destruct (step cfg cv m ps g1) as [ps' g2]. reflexivity.
Qed.

Lemma update_cursor cfg cv m p g :
  draws (snd (update cfg cv m p g)) = draws g /\
  cursor (snd (update cfg cv m p g)) =
    (cursor g + (if outside (x p + vx p) (width cv) then 1 else 0)
              + (if outside (y p + vy p) (height cv) then 1 else 0))%nat.
Proof.
  rewrite update_random.
  destruct (bounce_random (x p + vx p) (width cv) (vx p) g) as [Hd1 Hc1].
  destruct (bounce_random (y p + vy p) (height cv) (vy p)
              (snd (bounce (x p + vx p) (width cv) (vx p) g))) as [Hd2 Hc2].
  split; [congruence | lia].
Qed.

Lemma step_cursor cfg cv m ps : forall g,
  draws (snd (step cfg cv m ps g)) = draws g /\
  (cursor g <= cursor (snd (step cfg cv m ps g)) <= cursor g + 2 * length ps)%nat.
Proof.
  induction ps as [|p ps IH]; intros g.
  - cbn. split; [reflexivity | lia].
  - rewrite step_snd_cons.
    destruct (update_cursor cfg cv m p g) as [Hd Hc].
    destruct (IH (snd (update cfg cv m p g))) as [Hd' Hc'].
    split; [congruence|]. cbn [length].
    destruct (outside (x p + vx p) (width cv)), (outside (y p + vy p) (height cv)); lia.
Qed.

(** X5: a frame neither adds nor removes a particle, for any mouse and any
    draws, and so does any number of frames; [animate] fills one circle per
    particle, at the position the particle has after its update and with the
    radius and opacity it was made with. *)
Theorem frame_keeps_collection :
  forall cfg cv g ps,
    (forall m, length (fst (step cfg cv m ps g)) = length ps) /\
    (forall ms n, length (fst (steps cfg cv ms n ps g)) = length ps) /\
    (forall m,
       let f := animate cfg cv m ps g in
       length (frame_particles f) = length ps /\
       length (frame_arcs f) = length ps /\
       map arc_x (frame_arcs f) = map x (frame_particles f) /\
       map arc_y (frame_arcs f) = map y (frame_particles f) /\
       map arc_radius (frame_arcs f) = map size ps /\
       map arc_alpha (frame_arcs f) = map opacity ps /\
       frame_strokes f = connectParticles cfg m (frame_particles f)).
Proof.
  intros cfg cv g ps. split; [|split].
  - intros m. apply step_length.
  - intros ms n. revert ps. induction n as [|n IH]; intros ps; [reflexivity|].
    rewrite steps_S, step_length. apply IH.
  - intros m f. unfold f, animate.
    pose proof (step_length cfg cv m ps g) as Hl.
    destruct (step_frame cfg cv m ps g) as [Hs Ho].
    destruct (step cfg cv m ps g) as [ps1 g1]. cbn [fst] in *.
    cbn [frame_particles frame_arcs frame_strokes].
    rewrite length_map, !map_map. cbn [draw arc_x arc_y arc_radius arc_alpha].
    repeat split; auto.
Qed.

(** X6: [update] takes one draw for each axis on which the moved position is
    off the canvas and none otherwise, whatever the mouse does; a frame over
    [n] particles takes at most [2 n] draws and never rewinds the source. *)
Theorem update_draws_consumed :
  forall cfg cv m g,
    (forall p,
       draws (snd (update cfg cv m p g)) = draws g /\
       cursor (snd (update cfg cv m p g)) =
         (cursor g + (if outside (x p + vx p) (width cv) then 1 else 0)
                   + (if outside (y p + vy p) (height cv) then 1 else 0))%nat) /\
    (forall ps,
       draws (snd (step cfg cv m ps g)) = draws g /\
       (cursor g <= cursor (snd (step cfg cv m ps g)) <= cursor g + 2 * length ps)%nat).
Proof.
  intros cfg cv m g. split.
  - intros p. apply update_cursor.
  - intros ps. apply step_cursor.
Qed.

(** *** Motion *)

(** X7: a particle whose move ends inside the canvas, with both velocity
    components within the clamp and the pointer absent or at least the
    influence radius away, keeps its velocity: it moves in a straight line
    and takes no draw. *)
Theorem update_free_motion :
  forall cfg cv m p g,
    0 <= x p + vx p <= width cv ->
    0 <= y p + vy p <= height cv ->
    Rabs (vx p) <= particleSpeed cfg * 2 ->
    Rabs (vy p) <= particleSpeed cfg * 2 ->
    (mouse_x m = None \/ mouse_y m = None \/
     exists mx my, mouse_x m = Some mx /\ mouse_y m = Some my /\
                   radius m <= distance mx my (x p + vx p) (y p + vy p)) ->
    update cfg cv m p g =
    ({| x := x p + vx p; y := y p + vy p; vx := vx p; vy := vy p;
        size := size p; opacity := opacity p |}, g).
Proof.
  intros cfg cv m p g Hx Hy Hvx Hvy Hm. unfold update.
  rewrite (bounce_inside _ _ _ _ Hx), (bounce_inside _ _ _ _ Hy).
  rewrite !clampSpeed_id by (apply Rabs_le_between; assumption).
  assert (E : mouseInteraction cfg m (x p + vx p) (y p + vy p) (vx p) (vy p) =
              (vx p, vy p)).
  { unfold mouseInteraction.
    destruct Hm as [-> | [-> | (mx & my & -> & -> & Hd)]].
    - reflexivity.
    - destruct (mouse_x m); reflexivity.
    - unfold distance in Hd. rewrite ltb_false by assumption. reflexivity. }
  rewrite E. reflexivity.
Qed.

Lemma update_free_motion_witness :
  update config canvas0 (mouse config) particleB random0 =
  ({| x := x particleB + vx particleB; y := y particleB + vy particleB;
      vx := vx particleB; vy := vy particleB;
      size := size particleB; opacity := opacity particleB |}, random0).
Proof.
  apply (update_free_motion config canvas0 (mouse config) particleB random0).
  - simpl; lra.
  - simpl; lra.
  - simpl. rewrite Rabs_R0. lra.
  - simpl. rewrite Rabs_R0. lra.
  - left. reflexivity.
Defined.

Lemma clampSpeed_pos maxSpeed v : 0 < maxSpeed -> 0 < v -> 0 < clampSpeed maxSpeed v.
Proof.
  intros Hm Hv. unfold clampSpeed, Rmax, Rmin.
  destruct (Rle_dec maxSpeed v); destruct (Rle_dec _ _); lra.
Qed.

Lemma clampSpeed_neg maxSpeed v : 0 < maxSpeed -> v < 0 -> clampSpeed maxSpeed v < 0.
Proof.
  intros Hm Hv. unfold clampSpeed, Rmax, Rmin.
  destruct (Rle_dec maxSpeed v); destruct (Rle_dec _ _); lra.
Qed.

Lemma bounce_outside pos limit v g :
  outside pos limit = true ->
  bounce pos limit v g =
  (v * -1 + (draws g (cursor g) - 5 / 10) * (1 / 10),
   {| draws := draws g; cursor := S (cursor g) |}).
Proof.
  unfold outside, bounce. intros ->. reflexivity.
Qed.

Lemma update_vx_absent cfg cv m p g :
  mouse_x m = None \/ mouse_y m = None ->
  vx (fst (update cfg cv m p g)) =
  clampSpeed (particleSpeed cfg * 2) (fst (bounce (x p + vx p) (width cv) (vx p) g)).
Proof.
  intros Hm. pose proof (update_velocity cfg cv m p g) as Hv. cbv zeta in Hv.
  assert (E : forall a b, mouseInteraction cfg m (x p + vx p) (y p + vy p) a b = (a, b)).
  { intros a b. unfold mouseInteraction.
    destruct Hm as [-> | ->]; [reflexivity|]. destruct (mouse_x m); reflexivity. }
  rewrite E in Hv. injection Hv as Hv _. exact Hv.
Qed.

(** X8: the edge handling looks at the position, not at the direction.
    Whenever the moved x is off the canvas and the pointer is absent, the new
    vx is the clamp of the old one negated plus a jitter in [-0.05, 0.05)
    taken from the next draw; so a component faster than 0.05 changes sign,
    also when the particle was already heading back towards the canvas. *)
Theorem edge_reverses_velocity :
  forall cfg cv m p g,
    unit_draws g ->
    0 < particleSpeed cfg ->
    mouse_x m = None \/ mouse_y m = None ->
    outside (x p + vx p) (width cv) = true ->
    let v' := vx (fst (update cfg cv m p g)) in
    v' = clampSpeed (particleSpeed cfg * 2)
           (- vx p + (draws g (cursor g) - 5 / 10) * (1 / 10)) /\
    (vx p < - (5 / 100) -> 0 < v') /\
    (5 / 100 <= vx p -> v' < 0).
Proof.
  intros cfg cv m p g Hu Hs Hm Hout v'.
  unfold v'. rewrite (update_vx_absent cfg cv m p g Hm).
  rewrite (bounce_outside _ _ _ _ Hout). cbn [fst].
  replace (vx p * -1) with (- vx p) by ring.
  pose proof (Hu (cursor g)) as Hr.
  split; [reflexivity|]. split.
  - intros Hv. apply clampSpeed_pos; lra.
  - intros Hv. apply clampSpeed_neg; lra.
Qed.

Lemma edge_reverses_velocity_witness :
  0 < vx (fst (update config canvas0 (mouse config)
                 (fst (newParticle config canvas0 random0))
                 (snd (newParticle config canvas0 random0)))).
Proof.
  apply (edge_reverses_velocity config canvas0 (mouse config)
           (fst (newParticle config canvas0 random0))
           (snd (newParticle config canvas0 random0))).
  - intros n. simpl. unfold draws0. destruct n as [|[|[|n]]]; lra.
  - simpl; lra.
  - left. reflexivity.
  - unfold outside. apply orb_true_iff. left. apply ltb_true.
    simpl. unfold draws0. lra.
  - simpl. unfold draws0. lra.
Defined.

(** *** The direction of the mouse force *)

Lemma sqrt_sum_sq_pos x0 y0 :
  0 < x0 ->
  sqrt (x0 * x0 + y0 * y0) = x0 * sqrt (1 + (y0 / x0)²).
Proof.
  intros Hx.
  replace (x0 * x0 + y0 * y0) with (x0 * x0 * (1 + (y0 / x0)²))
    by (unfold Rsqr; field; lra).
  rewrite sqrt_mult_alt by nra.
  rewrite sqrt_square by lra. reflexivity.
Qed.

Lemma sqrt_one_plus_sq_pos t : 0 < sqrt (1 + t²).
Proof. apply sqrt_lt_R0. pose proof (Rle_0_sqr t). lra. Qed.

Lemma atan_polar x0 y0 :
  0 < x0 ->
  cos (atan (y0 / x0)) * sqrt (x0 * x0 + y0 * y0) = x0 /\
  sin (atan (y0 / x0)) * sqrt (x0 * x0 + y0 * y0) = y0.
Proof.
  intros Hx. rewrite sqrt_sum_sq_pos by assumption.
  rewrite cos_atan, sin_atan.
  pose proof (sqrt_one_plus_sq_pos (y0 / x0)) as Hs.
  split; field; lra.
Qed.

(** [Math.atan2(y, x)] is the angle of the point (x, y): its cosine and sine,
    scaled by the distance of the point from the origin, give x and y back. *)
Lemma atan2_polar y0 x0 :
  cos (atan2 y0 x0) * sqrt (x0 * x0 + y0 * y0) = x0 /\
  sin (atan2 y0 x0) * sqrt (x0 * x0 + y0 * y0) = y0.
Proof.
  unfold atan2.
  destruct (ltb 0 x0) eqn:Hpos.
  - apply ltb_lt in Hpos. apply atan_polar; assumption.
  - apply ltb_ge in Hpos. destruct (ltb x0 0) eqn:Hneg.
    + apply ltb_lt in Hneg.
      destruct (atan_polar (- x0) (- y0)) as [Hc Hs]; [lra|].
      replace (- y0 / - x0) with (y0 / x0) in Hc, Hs by (field; lra).
      replace (- x0 * - x0 + - y0 * - y0) with (x0 * x0 + y0 * y0) in Hc, Hs by ring.
      destruct (ltb y0 0).
      * unfold Rminus. rewrite cos_plus, sin_plus, cos_neg, sin_neg, cos_PI, sin_PI.
        split; nra.
      * rewrite neg_cos, neg_sin. split; nra.
    + apply ltb_ge in Hneg. assert (x0 = 0) by lra. subst x0.
      replace (0 * 0 + y0 * y0) with (y0 * y0) by ring.
      destruct (ltb 0 y0) eqn:Hy.
      * apply ltb_lt in Hy. rewrite cos_PI2, sin_PI2, sqrt_square by lra. split; ring.
      * apply ltb_ge in Hy. destruct (ltb y0 0) eqn:Hy'.
        -- apply ltb_lt in Hy'.
           replace (- PI / 2) with (- (PI / 2)) by field.
           rewrite cos_neg, sin_neg, cos_PI2, sin_PI2.
           replace (y0 * y0) with (- y0 * - y0) by ring.
           rewrite sqrt_square by lra. split; ring.
        -- apply ltb_ge in Hy'. assert (y0 = 0) by lra. subst y0.
           replace (0 * 0) with 0 by ring. rewrite sqrt_0. split; ring.
Qed.

Lemma distance_zero ax ay bx b_y :
  distance ax ay bx b_y = 0 -> ax - bx = 0 /\ ay - b_y = 0.
Proof.
  unfold distance. cbv zeta. intros H.
  apply sqrt_eq_0 in H.
  - apply Rplus_sqr_eq_0. exact H.
  - pose proof (Rle_0_sqr (ax - bx)). pose proof (Rle_0_sqr (ay - b_y)).
    unfold Rsqr in *. lra.
Qed.

(** X9: within the influence radius the mouse force pushes the particle
    straight away from the pointer: the change of velocity, scaled by the
    distance, is the vector from the particle to the pointer reversed and
    scaled by [force * mouseForce], where [force = (radius - d) / radius] is
    in (0, 1]; its magnitude is [force * mouseForce].  With the pointer
    exactly on the particle the push is the full [mouseForce] along -x. *)
Theorem mouse_force_repels :
  forall cfg mx my r px py v_x v_y,
    let d := distance mx my px py in
    d < r ->
    let v' := mouseInteraction cfg (mkMouse (Some mx) (Some my) r) px py v_x v_y in
    let force := (r - d) / r in
    0 < force <= 1 /\
    (fst v' - v_x) * d = - (mx - px) * (force * mouseForce cfg) /\
    (snd v' - v_y) * d = - (my - py) * (force * mouseForce cfg) /\
    (fst v' - v_x)² + (snd v' - v_y)² = (force * mouseForce cfg)² /\
    (d = 0 -> fst v' = v_x - mouseForce cfg /\ snd v' = v_y).
Proof.
  intros cfg mx my r px py v_x v_y d Hd v' force.
  assert (Hd0 : 0 <= d) by apply sqrt_pos.
  assert (Hr : 0 < r) by lra.
  assert (Hforce : 0 < force <= 1).
  { unfold force. split.
    - apply Rdiv_lt_0_compat; lra.
    - apply (Rmult_le_reg_r r); [assumption|].
      unfold Rdiv. rewrite Rmult_assoc, Rinv_l by lra. lra. }
  assert (Ev : v' = (v_x - cos (atan2 (my - py) (mx - px)) * force * mouseForce cfg,
                     v_y - sin (atan2 (my - py) (mx - px)) * force * mouseForce cfg)).
  { unfold v', mouseInteraction. cbn [mouse_x mouse_y radius].
    fold (distance mx my px py). fold d. rewrite (ltb_true d r Hd). reflexivity. }
  destruct (atan2_polar (my - py) (mx - px)) as [Hc Hs].
  fold (distance mx my px py) in Hc, Hs. fold d in Hc, Hs.
  set (c := cos (atan2 (my - py) (mx - px))) in *.
  set (sn := sin (atan2 (my - py) (mx - px))) in *.
  rewrite Ev. cbn [fst snd].
  split; [exact Hforce|]. split; [|split; [|split]].
  - rewrite <- Hc. ring.
  - rewrite <- Hs. ring.
  - pose proof (sin2_cos2 (atan2 (my - py) (mx - px))) as H1.
    fold c sn in H1. unfold Rsqr in *.
    replace ((v_x - c * force * mouseForce cfg - v_x) *
             (v_x - c * force * mouseForce cfg - v_x) +
             (v_y - sn * force * mouseForce cfg - v_y) *
             (v_y - sn * force * mouseForce cfg - v_y))
      with ((sn * sn + c * c) * (force * mouseForce cfg * (force * mouseForce cfg)))
      by ring.
    rewrite H1. ring.
  - intros Hz.
    destruct (distance_zero mx my px py Hz) as [Hdx Hdy].
    unfold c, sn. rewrite Hdx, Hdy.
    assert (Ha : atan2 0 0 = 0).
    { unfold atan2. rewrite !ltb_false by lra. reflexivity. }
    rewrite Ha, cos_0, sin_0.
    assert (Hf : force = 1) by (unfold force; rewrite Hz; field; lra).
    rewrite Hf. split; ring.
Qed.

Lemma mouse_force_repels_witness :
  fst (mouseInteraction config (mkMouse (Some 50) (Some 50) 150) 50 50 0 0) =
    0 - mouseForce config /\
  snd (mouseInteraction config (mkMouse (Some 50) (Some 50) 150) 50 50 0 0) = 0.
Proof.
  assert (Hz : distance 50 50 50 50 = 0).
  { unfold distance.
    replace ((50 - 50) * (50 - 50) + (50 - 50) * (50 - 50)) with 0 by ring.
    apply sqrt_0. }
  destruct (mouse_force_repels config 50 50 150 50 50 0 0) as (_ & _ & _ & _ & H).
  - rewrite Hz. lra.
  - apply H. exact Hz.
Defined.

(** *** Strokes *)

Lemma In_connectMouse m p s :
  In s (connectMouse m p) <->
  exists mx my, mouse_x m = Some mx /\ mouse_y m = Some my /\
                distance (x p) (y p) mx my < radius m /\
                s = mouseStroke mx my (radius m) p.
Proof.
  unfold connectMouse. split.
  - destruct (mouse_x m) as [mx|]; [|intros []].
    destruct (mouse_y m) as [my|]; [|intros []].
    destruct (ltb _ _) eqn:Hlt; [|intros []].
    intros [<- | []]. apply ltb_lt in Hlt.
    exists mx, my. repeat split; auto.
  - intros (mx & my & -> & -> & Hd & ->).
    rewrite (ltb_true _ _ Hd). left. reflexivity.
Qed.

Lemma connectPairs_style cfg p rest s :
  In s (connectPairs cfg p rest) -> strokeStyle s = connection.
Proof.
  intros H. apply In_connectPairs in H as (q & _ & _ & ->). reflexivity.
Qed.

Lemma In_connectParticles_mouse cfg m ps : forall s,
  In s (connectParticles cfg m ps) /\ strokeStyle s = mouseConnection <->
  exists p mx my,
    In p ps /\ mouse_x m = Some mx /\ mouse_y m = Some my /\
    distance (x p) (y p) mx my < radius m /\
    s = mouseStroke mx my (radius m) p.
Proof.
  induction ps as [|p0 ps IH]; intros s.
  - simpl. split; [intros [[] _] | intros (p & mx & my & [] & _)].
  - cbn [connectParticles]. rewrite !in_app_iff. split.
    + intros [[Hin | [Hin | Hin]] Hst].
      * apply connectPairs_style in Hin. congruence.
      * apply In_connectMouse in Hin as (mx & my & Hx & Hy & Hd & ->).
        exists p0, mx, my. repeat split; auto. left. reflexivity.
      * destruct (proj1 (IH s) (conj Hin Hst)) as (p & mx & my & Hp & H).
        exists p, mx, my. split; [right; exact Hp | exact H].
    + intros (p & mx & my & [<- | Hp] & Hx & Hy & Hd & ->).
      * split; [|reflexivity]. right. left.
        apply In_connectMouse. exists mx, my. repeat split; auto.
      * split; [|reflexivity]. right. right.
        apply (IH (mouseStroke mx my (radius m) p)).
        exists p, mx, my. repeat split; auto.
Qed.

Lemma filter_pointer_connectPairs cfg p rest :
  filter isPointerStroke (connectPairs cfg p rest) = [].
Proof.
  induction rest as [|q rest IH]; [reflexivity|].
  cbn [connectPairs]. destruct (ltb _ _); [cbn; exact IH | exact IH].
Qed.

Lemma filter_pointer_connectMouse mx my r p :
  filter isPointerStroke (connectMouse (mkMouse (Some mx) (Some my) r) p) =
  if nearPointer mx my r p then [mouseStroke mx my r p] else [].
Proof.
  unfold connectMouse, nearPointer. cbn [mouse_x mouse_y radius].
  destruct (ltb _ _); reflexivity.
Qed.

Lemma filter_pointer_connectParticles cfg mx my r ps :
  filter isPointerStroke (connectParticles cfg (mkMouse (Some mx) (Some my) r) ps) =
  map (mouseStroke mx my r) (filter (nearPointer mx my r) ps).
Proof.
  induction ps as [|p ps IH]; [reflexivity|].
  cbn [connectParticles filter]. rewrite !filter_app.
  rewrite filter_pointer_connectPairs, filter_pointer_connectMouse, IH.
  destruct (nearPointer mx my r p); reflexivity.
Qed.

(** X10: the pointer segments of [connectParticles], in the order they are
    stroked, are one segment for each particle closer to the pointer than
    the influence radius, in the order of the collection, and nothing else:
    a segment of width 2 and alpha [1 - d / radius] from the particle to the
    pointer.  With the pointer absent every stroke is a particle-to-particle
    connection. *)
Theorem connections_pointer_segments :
  forall cfg m ps,
    (forall s,
       In s (connectParticles cfg m ps) /\ strokeStyle s = mouseConnection <->
       exists p mx my,
         In p ps /\ mouse_x m = Some mx /\ mouse_y m = Some my /\
         distance (x p) (y p) mx my < radius m /\
         s = {| strokeStyle := mouseConnection;
                globalAlpha := 1 - distance (x p) (y p) mx my / radius m;
                lineWidth := 2;
                moveTo := (x p, y p);
                lineTo := (mx, my) |}) /\
    (forall mx my,
       mouse_x m = Some mx -> mouse_y m = Some my ->
       filter isPointerStroke (connectParticles cfg m ps) =
       map (fun p =>
              {| strokeStyle := mouseConnection;
                 globalAlpha := 1 - distance (x p) (y p) mx my / radius m;
                 lineWidth := 2;
                 moveTo := (x p, y p);
                 lineTo := (mx, my) |})
           (filter (fun p => ltb (distance (x p) (y p) mx my) (radius m)) ps)) /\
    (mouse_x m = None \/ mouse_y m = None ->
     filter isPointerStroke (connectParticles cfg m ps) = [] /\
     forall s, In s (connectParticles cfg m ps) -> strokeStyle s = connection).
Proof.
  intros cfg m ps. split; [|split].
  - intros s. apply In_connectParticles_mouse.
  - intros mx my Hx Hy. destruct m as [m_x m_y r]. cbn in Hx, Hy. subst m_x m_y.
    apply filter_pointer_connectParticles.
  - intros Hnone.
    assert (Hall : forall s, In s (connectParticles cfg m ps) ->
                             strokeStyle s = connection).
    { intros s Hin.
      destruct (strokeStyle s) eqn:Hst; [reflexivity|].
      destruct (proj1 (In_connectParticles_mouse cfg m ps s) (conj Hin Hst))
        as (p & mx & my & _ & Hx & Hy & _).
      destruct Hnone as [H | H]; congruence. }
    split; [|exact Hall].
    destruct (filter isPointerStroke (connectParticles cfg m ps)) as [|s l] eqn:E;
      [reflexivity|].
    assert (Hin : In s (filter isPointerStroke (connectParticles cfg m ps)))
      by (rewrite E; left; reflexivity).
    apply filter_In in Hin as [Hin Hp].
    unfold isPointerStroke in Hp. rewrite (Hall s Hin) in Hp. discriminate.
Qed.

Lemma connections_pointer_segments_witness :
  filter isPointerStroke
    (connectParticles config (mkMouse (Some 0) (Some 30) 150) [particleA; particleB]) =
  [ {| strokeStyle := mouseConnection;
       globalAlpha := 1 - distance (x particleA) (y particleA) 0 30 / 150;
       lineWidth := 2;
       moveTo := (x particleA, y particleA);
       lineTo := (0, 30) |};
    {| strokeStyle := mouseConnection;
       globalAlpha := 1 - distance (x particleB) (y particleB) 0 30 / 150;
       lineWidth := 2;
       moveTo := (x particleB, y particleB);
       lineTo := (0, 30) |} ].
Proof.
  destruct (connections_pointer_segments config (mkMouse (Some 0) (Some 30) 150)
              [particleA; particleB]) as (_ & H & _).
  rewrite (H 0 30 eq_refl eq_refl). cbn [filter radius].
  assert (HA : distance (x particleA) (y particleA) 0 30 = 30).
  { unfold distance. simpl.
    replace ((0 - 0) * (0 - 0) + (0 - 30) * (0 - 30)) with (30 * 30) by ring.
    apply sqrt_square. lra. }
  assert (HB : distance (x particleB) (y particleB) 0 30 < 150).
  { unfold distance. simpl.
    replace ((60 - 0) * (60 - 0) + (0 - 30) * (0 - 30)) with 4500 by ring.
    replace 150 with (sqrt (150 * 150)) by (apply sqrt_square; lra).
    apply sqrt_lt_1_alt. lra. }
  rewrite (ltb_true _ _ HB). rewrite HA at 1. rewrite ltb_true by lra.
  reflexivity.
Defined.

Lemma falloff_range d t : 0 <= d -> d < t -> 0 < 1 - d / t <= 1.
Proof.
  intros Hd Ht. assert (Hpos : 0 < t) by lra.
  assert (H1 : 0 <= d / t) by (apply Rmult_le_pos; [lra | left; apply Rinv_0_lt_compat; lra]).
  assert (H2 : d / t < 1).
  { apply (Rmult_lt_reg_r t); [assumption|].
    unfold Rdiv. rewrite Rmult_assoc, Rinv_l by lra. lra. }
  lra.
Qed.

(** X11: every stroke [connectParticles] issues has an alpha in (0, 1]: a
    connection has width 1 and an alpha of at most 1/2, a pointer segment has
    width 2.  No threshold or radius has to be assumed positive: a stroke is
    only issued below it. *)
Theorem stroke_alpha_range :
  forall cfg m ps s,
    In s (connectParticles cfg m ps) ->
    0 < globalAlpha s <= 1 /\
    (strokeStyle s = connection -> globalAlpha s <= 1 / 2 /\ lineWidth s = 1) /\
    (strokeStyle s = mouseConnection -> lineWidth s = 2).
Proof.
  intros cfg m ps s Hin.
  destruct (strokeStyle s) eqn:Hst.
  - destruct (proj1 (In_connectParticles cfg m ps s) (conj Hin Hst))
      as (i & j & p & q & _ & _ & _ & Hd & ->).
    assert (H0 : 0 <= distance (x p) (y p) (x q) (y q)) by apply sqrt_pos.
    pose proof (falloff_range _ _ H0 Hd) as Hf.
    cbn [pairStroke globalAlpha lineWidth].
    repeat split; try lra; discriminate.
  - destruct (proj1 (In_connectParticles_mouse cfg m ps s) (conj Hin Hst))
      as (p & mx & my & _ & _ & _ & Hd & ->).
    assert (H0 : 0 <= distance (x p) (y p) mx my) by apply sqrt_pos.
    pose proof (falloff_range _ _ H0 Hd) as Hf.
    cbn [mouseStroke globalAlpha lineWidth].
    repeat split; try lra; discriminate.
Qed.

Lemma stroke_alpha_range_witness :
  0 < globalAlpha (pairStroke config particleA particleB) <= 1.
Proof.
  apply (stroke_alpha_range config (mouse config) [particleA; particleB]
           (pairStroke config particleA particleB)).
  cbn [connectParticles connectPairs connectMouse mouse mouse_x mouse_y app].
  rewrite distance_AB. rewrite ltb_true by (simpl; lra).
  left. unfold pairStroke. rewrite distance_AB. reflexivity.
Defined.

Lemma connectPairs_length cfg p rest :
  (length (connectPairs cfg p rest) <= length rest)%nat.
Proof.
  induction rest as [|q rest IH]; cbn; [lia|].
  destruct (ltb _ _); cbn; lia.
Qed.

Lemma connectMouse_length m p : (length (connectMouse m p) <= 1)%nat.
Proof.
  unfold connectMouse.
  destruct (mouse_x m), (mouse_y m); cbn; try lia.
  destruct (ltb _ _); cbn; lia.
Qed.

Lemma connectMouse_absent m p :
  mouse_x m = None \/ mouse_y m = None -> connectMouse m p = [].
Proof.
  unfold connectMouse. intros [-> | ->]; [reflexivity|].
  destruct (mouse_x m); reflexivity.
Qed.

(** X12: over [n] particles [connectParticles] issues at most one stroke per
    unordered pair and one per particle, [n (n - 1) / 2 + n] in all, and at
    most [n (n - 1) / 2] with the pointer absent; fewer than two particles
    and no pointer give no stroke at all. *)
Theorem stroke_count_bound :
  forall cfg m ps,
    (2 * length (connectParticles cfg m ps) <= length ps * (length ps + 1))%nat /\
    (mouse_x m = None \/ mouse_y m = None ->
     (2 * length (connectParticles cfg m ps) <= length ps * (length ps - 1))%nat /\
     ((length ps <= 1)%nat -> connectParticles cfg m ps = [])).
Proof.
  intros cfg m ps. split.
  - induction ps as [|p ps IH]; cbn [connectParticles length]; [lia|].
    rewrite !length_app.
    pose proof (connectPairs_length cfg p ps). pose proof (connectMouse_length m p).
    nia.
  - intros Hnone.
    assert (Hb : (2 * length (connectParticles cfg m ps) <= length ps * (length ps - 1))%nat).
    { induction ps as [|p ps IH]; cbn [connectParticles length]; [lia|].
      rewrite (connectMouse_absent m p Hnone). rewrite !length_app. cbn [length].
      pose proof (connectPairs_length cfg p ps).
      destruct (length ps); [lia|]. cbn in *. nia. }
    split; [exact Hb|].
    intros Hle. apply length_zero_iff_nil.
    destruct ps as [|p [|q ps]]; cbn in *; lia.
Qed.

Lemma stroke_count_bound_witness :
  connectParticles config (mouse config) [particleA] = [].
Proof.
  destruct (stroke_count_bound config (mouse config) [particleA]) as [_ H].
  destruct H as [_ H]; [left; reflexivity|].
  apply H. cbn. lia.
Defined.

End ParticlesMore.

(** ** Further properties of the carousel controller *)

Module CarouselMore.
Import Num NumFacts Carousel CarouselFacts.
Open Scope R_scope.

(** *** Navigation, one call at a time *)

(** X13: on an idle controller with a valid index [next] advances the index
    by one; at the last item it wraps to 0 when [loop] is on and stays on
    the last item when it is off.  In each case a transition starts. *)
Theorem next_advances_wraps_or_clamps :
  forall c,
    isAnimating c = false ->
    validIndex c ->
    let last := (Z.of_nat (totalItems c) - 1)%Z in
    ((currentIndex c < last)%Z -> currentIndex (next c) = (currentIndex c + 1)%Z) /\
    (currentIndex c = last -> loop (config c) = true -> currentIndex (next c) = 0%Z) /\
    (currentIndex c = last -> loop (config c) = false -> currentIndex (next c) = last) /\
    isAnimating (next c) = true.
Proof.
  intros c Hidle Hv last. unfold validIndex in Hv.
  destruct (next_index c Hidle) as (-> & Ha & _).
  subst last. repeat split; auto.
  - intros Hlt. destruct (currentIndex c + 1 >=? Z.of_nat (totalItems c))%Z eqn:E;
      [lia | reflexivity].
  - intros Hlast ->.
    destruct (currentIndex c + 1 >=? Z.of_nat (totalItems c))%Z eqn:E;
      [reflexivity | lia].
  - intros Hlast ->.
    destruct (currentIndex c + 1 >=? Z.of_nat (totalItems c))%Z eqn:E;
      [reflexivity | lia].
Qed.

Lemma next_advances_wraps_or_clamps_witness :
  currentIndex (next (create carouselConfig 5)) = 1%Z /\
  currentIndex (next (create noLoopConfig 1)) = 0%Z.
Proof.
  destruct (next_advances_wraps_or_clamps (create carouselConfig 5) eq_refl)
    as (H1 & _).
  { unfold validIndex. simpl. lia. }
  destruct (next_advances_wraps_or_clamps (create noLoopConfig 1) eq_refl)
    as (_ & _ & H3 & _).
  { unfold validIndex. simpl. lia. }
  split.
  - apply H1. simpl. lia.
  - apply H3; reflexivity.
Defined.

(** X14: an explicit [goTo] out of range is clamped, never rejected: on an
    idle controller with a valid index a negative request lands on item 0
    and a request past the end on the last item, and a transition starts
    even when that is the item already shown. *)
Theorem goTo_out_of_range_clamps :
  forall c i,
    isAnimating c = false ->
    validIndex c ->
    ((i < 0)%Z -> currentIndex (goTo i c) = 0%Z /\ isAnimating (goTo i c) = true) /\
    ((Z.of_nat (totalItems c) <= i)%Z ->
     currentIndex (goTo i c) = (Z.of_nat (totalItems c) - 1)%Z /\
     isAnimating (goTo i c) = true).
Proof.
  intros c i Hidle Hv. unfold validIndex in Hv. split; intros Hi.
  - destruct (goTo_index i c Hidle) as (-> & -> & _); [lia|]. split; [lia | reflexivity].
  - destruct (goTo_index i c Hidle) as (-> & -> & _); [lia|]. split; [lia | reflexivity].
Qed.

Lemma goTo_out_of_range_clamps_witness :
  currentIndex (goTo (-3) (create carouselConfig 5)) = 0%Z /\
  isAnimating (goTo (-3) (create carouselConfig 5)) = true /\
  currentIndex (goTo 9 (create carouselConfig 5)) = 4%Z.
Proof.
  destruct (goTo_out_of_range_clamps (create carouselConfig 5) (-3) eq_refl)
    as (H1 & _).
  { unfold validIndex. simpl. lia. }
  destruct (goTo_out_of_range_clamps (create carouselConfig 5) 9 eq_refl)
    as (_ & H2).
  { unfold validIndex. simpl. lia. }
  assert (Hneg : (-3 < 0)%Z) by lia.
  assert (Hbig : (Z.of_nat (totalItems (create carouselConfig 5)) <= 9)%Z)
    by (simpl; lia).
  destruct (H1 Hneg) as [Ha Hb]. destruct (H2 Hbig) as [Hc _].
  repeat split; assumption.
Defined.

(** *** Navigation, composed *)

Lemma completeTransitions_fields c :
  config (completeTransitions c) = config c /\
  currentIndex (completeTransitions c) = currentIndex c /\
  totalItems (completeTransitions c) = totalItems c /\
  pending (completeTransitions c) = [] /\
  (pending c <> [] -> isAnimating (completeTransitions c) = false).
Proof. unfold completeTransitions. apply finishAll_fields. reflexivity. Qed.

Lemma nextDone_fields c :
  isAnimating c = false ->
  config (nextDone c) = config c /\
  totalItems (nextDone c) = totalItems c /\
  isAnimating (nextDone c) = false /\
  pending (nextDone c) = [] /\
  currentIndex (nextDone c) = currentIndex (next c).
Proof.
  intros Hidle. unfold nextDone.
  destruct (next_index c Hidle) as (_ & _ & Hp & Ht & Hc).
  destruct (completeTransitions_fields (next c)) as (Hc' & Hi' & Ht' & Hp' & Ha').
  repeat split; try congruence. apply Ha'. exact Hp.
Qed.

Lemma prevDone_fields c :
  isAnimating c = false ->
  config (prevDone c) = config c /\
  totalItems (prevDone c) = totalItems c /\
  isAnimating (prevDone c) = false /\
  pending (prevDone c) = [] /\
  currentIndex (prevDone c) = currentIndex (prev c).
Proof.
  intros Hidle. unfold prevDone.
  destruct (prev_index c Hidle) as (_ & _ & Hp & Ht & Hc).
  destruct (completeTransitions_fields (prev c)) as (Hc' & Hi' & Ht' & Hp' & Ha').
  repeat split; try congruence. apply Ha'. exact Hp.
Qed.

(** X15: with [loop] on, [prev] undoes [next] and [next] undoes [prev] once
    the transition between them has completed; with [loop] off that holds
    away from the ends, and at the ends the clamped call is not undone. *)
Theorem prev_next_inverse :
  forall c,
    isAnimating c = false ->
    validIndex c ->
    let n := Z.of_nat (totalItems c) in
    (loop (config c) = true ->
     currentIndex (prev (nextDone c)) = currentIndex c /\
     currentIndex (next (prevDone c)) = currentIndex c) /\
    (loop (config c) = false ->
     ((currentIndex c < n - 1)%Z -> currentIndex (prev (nextDone c)) = currentIndex c) /\
     ((0 < currentIndex c)%Z -> currentIndex (next (prevDone c)) = currentIndex c) /\
     ((1 < n)%Z -> currentIndex c = (n - 1)%Z ->
      currentIndex (prev (nextDone c)) = (n - 2)%Z) /\
     ((1 < n)%Z -> currentIndex c = 0%Z ->
      currentIndex (next (prevDone c)) = 1%Z)).
Proof.
  intros c Hidle Hv n. unfold validIndex in Hv. subst n.
  destruct (nextDone_fields c Hidle) as (Hnc & Hnt & Hna & _ & Hni).
  destruct (prevDone_fields c Hidle) as (Hpc & Hpt & Hpa & _ & Hpi).
  destruct (prev_index (nextDone c) Hna) as (Hpn & _).
  destruct (next_index (prevDone c) Hpa) as (Hnp & _).
  destruct (next_index c Hidle) as (Hn & _).
  destruct (prev_index c Hidle) as (Hp & _).
  rewrite Hpn, Hnp, Hni, Hpi, Hn, Hp, Hnc, Hpc, Hnt, Hpt.
  split; intros ->.
  - split.
    + destruct (currentIndex c + 1 >=? Z.of_nat (totalItems c))%Z eqn:E1.
      * cbn. lia.
      * destruct (currentIndex c + 1 - 1 <? 0)%Z eqn:E2; lia.
    + destruct (currentIndex c - 1 <? 0)%Z eqn:E1.
      * destruct (Z.of_nat (totalItems c) - 1 + 1 >=? Z.of_nat (totalItems c))%Z eqn:E2; lia.
      * destruct (currentIndex c - 1 + 1 >=? Z.of_nat (totalItems c))%Z eqn:E2; lia.
  - repeat split.
    + intros Hlt.
      destruct (currentIndex c + 1 >=? Z.of_nat (totalItems c))%Z eqn:E1; [lia|].
      destruct (currentIndex c + 1 - 1 <? 0)%Z eqn:E2; lia.
    + intros Hpos.
      destruct (currentIndex c - 1 <? 0)%Z eqn:E1; [lia|].
      destruct (currentIndex c - 1 + 1 >=? Z.of_nat (totalItems c))%Z eqn:E2; lia.
    + intros Hn1 Hlast.
      destruct (currentIndex c + 1 >=? Z.of_nat (totalItems c))%Z eqn:E1; [|lia].
      destruct (Z.of_nat (totalItems c) - 1 - 1 <? 0)%Z eqn:E2; lia.
    + intros Hn1 Hfirst.
      destruct (currentIndex c - 1 <? 0)%Z eqn:E1; [|lia].
      destruct (0 + 1 >=? Z.of_nat (totalItems c))%Z eqn:E2; lia.
Qed.

Lemma prev_next_inverse_witness :
  currentIndex (prev (nextDone (create carouselConfig 5))) = 0%Z /\
  currentIndex (next (prevDone (create carouselConfig 5))) = 0%Z /\
  currentIndex (next (prevDone (create noLoopConfig 5))) = 1%Z.
Proof.
  destruct (prev_next_inverse (create carouselConfig 5) eq_refl) as (H1 & _).
  { unfold validIndex. simpl. lia. }
  destruct (prev_next_inverse (create noLoopConfig 5) eq_refl) as (_ & H2).
  { unfold validIndex. simpl. lia. }
  destruct (H1 eq_refl) as [Ha Hb].
  destruct (H2 eq_refl) as (_ & _ & _ & Hc).
  split; [exact Ha | split; [exact Hb |]].
  apply Hc; [simpl; lia | reflexivity].
Defined.

Lemma iter_nextDone_fields k : forall c,
  isAnimating c = false ->
  config (Nat.iter k nextDone c) = config c /\
  totalItems (Nat.iter k nextDone c) = totalItems c /\
  isAnimating (Nat.iter k nextDone c) = false.
Proof.
  induction k as [|k IH]; intros c Hidle; [repeat split; assumption|].
  rewrite Nat.iter_succ. destruct (IH c Hidle) as (Hc & Ht & Ha).
  destruct (nextDone_fields _ Ha) as (Hc' & Ht' & Ha' & _).
  repeat split; congruence.
Qed.

Lemma wrap_succ_mod a n :
  (0 <= a < n)%Z ->
  (if (a + 1 >=? n)%Z then 0%Z else (a + 1)%Z) = ((a + 1) mod n)%Z.
Proof.
  intros Ha. destruct (a + 1 >=? n)%Z eqn:E.
  - assert (a + 1 = n)%Z by lia. rewrite H. rewrite Z.mod_same by lia. reflexivity.
  - rewrite Z.mod_small by lia. reflexivity.
Qed.

(** X16: with [loop] on, [k] completed calls of [next] from a valid index
    [i] of [n] items end on item [(i + k) mod n], so [n] of them come back to
    the start; with [loop] off they end on [min (i + k) (n - 1)]. *)
Theorem next_repeated :
  forall c k,
    isAnimating c = false ->
    validIndex c ->
    let n := Z.of_nat (totalItems c) in
    (loop (config c) = true ->
     currentIndex (Nat.iter k nextDone c) = ((currentIndex c + Z.of_nat k) mod n)%Z /\
     currentIndex (Nat.iter (totalItems c) nextDone c) = currentIndex c) /\
    (loop (config c) = false ->
     currentIndex (Nat.iter k nextDone c) = Z.min (currentIndex c + Z.of_nat k) (n - 1)).
Proof.
  intros c k Hidle Hv n. unfold validIndex in Hv. fold n in Hv.
  assert (Hstep : forall j,
            currentIndex (Nat.iter (S j) nextDone c) =
            (let a := currentIndex (Nat.iter j nextDone c) in
             if a + 1 >=? n
             then (if loop (config c) then 0 else n - 1)
             else a + 1)%Z).
  { intros j. rewrite Nat.iter_succ.
    destruct (iter_nextDone_fields j c Hidle) as (Hc & Ht & Ha).
    destruct (nextDone_fields _ Ha) as (_ & _ & _ & _ & ->).
    destruct (next_index _ Ha) as (-> & _). rewrite Hc, Ht. reflexivity. }
  assert (Hloop : loop (config c) = true -> forall j,
            currentIndex (Nat.iter j nextDone c) = ((currentIndex c + Z.of_nat j) mod n)%Z).
  { intros Hl j. induction j as [|j IH].
    - change (Nat.iter 0 nextDone c) with c.
      rewrite Z.add_0_r, Z.mod_small by lia. reflexivity.
    - rewrite Hstep, Hl. cbv zeta. rewrite IH.
      rewrite wrap_succ_mod by (apply Z.mod_pos_bound; lia).
      rewrite Z.add_mod_idemp_l by lia. f_equal. lia. }
  split.
  - intros Hl. split; [apply Hloop; assumption|].
    rewrite Hloop by assumption. fold n.
    replace (currentIndex c + n)%Z with (currentIndex c + 1 * n)%Z by lia.
    rewrite Z.mod_add by lia. apply Z.mod_small. lia.
  - intros Hl. induction k as [|k IH].
    + change (Nat.iter 0 nextDone c) with c. lia.
    + rewrite Hstep, Hl. cbv zeta. rewrite IH.
      destruct (Z.min (currentIndex c + Z.of_nat k) (n - 1) + 1 >=? n)%Z eqn:E; lia.
Qed.

Lemma next_repeated_witness :
  currentIndex (Nat.iter 7 nextDone (create carouselConfig 5)) = ((0 + 7) mod 5)%Z /\
  currentIndex (Nat.iter 5 nextDone (create carouselConfig 5)) = 0%Z /\
  currentIndex (Nat.iter 7 nextDone (create noLoopConfig 5)) = 4%Z.
Proof.
  destruct (next_repeated (create carouselConfig 5) 7 eq_refl) as (H1 & _).
  { unfold validIndex. simpl. lia. }
  destruct (next_repeated (create noLoopConfig 5) 7 eq_refl) as (_ & H2).
  { unfold validIndex. simpl. lia. }
  destruct (H1 eq_refl) as [Ha Hb].
  split; [exact Ha | split; [exact Hb | exact (H2 eq_refl)]].
Defined.

(** *** Where the track comes to rest *)

Lemma finishAll_track n : forall c a,
  length (pending c) = S n ->
  trackTransform (finishAll (S n) c) = toX (last (pending c) a).
Proof.
  induction n as [|n IH]; intros c a Hlen.
  - cbn [finishAll]. unfold onfinish.
    destruct (pending c) as [|b [|b' rest]] eqn:E; try discriminate. reflexivity.
  - change (finishAll (S (S n)) c) with (finishAll (S n) (onfinish c)).
    destruct (onfinish_fields c) as (_ & _ & _ & Hp & _).
    destruct (pending c) as [|b rest] eqn:E; [discriminate|].
    cbn [tl] in Hp. cbn [length] in Hlen.
    rewrite (IH (onfinish c) a) by (rewrite Hp; lia).
    rewrite Hp. destruct rest; [discriminate | reflexivity].
Qed.

Lemma navigate_pending i c :
  let c' := resetAutoplay (updateCarousel true (set_currentIndex i c)) in
  pending c' = pending c ++ [ {| fromX := trackTransform c; toX := offset c' |} ].
Proof.
  intros c'. subst c'.
  destruct (resetAutoplay_fields (updateCarousel true (set_currentIndex i c)))
    as (Hc & Hi & _ & _ & Hp).
  rewrite Hp. unfold offset. rewrite Hc, Hi. reflexivity.
Qed.

Lemma completeTransitions_track c a rest :
  pending c = rest ++ [a] ->
  trackTransform (completeTransitions c) = toX a /\
  offset (completeTransitions c) = offset c.
Proof.
  intros Hp. split.
  - unfold completeTransitions.
    assert (Hlen : length (pending c) = S (length rest)).
    { rewrite Hp, length_app. cbn. lia. }
    rewrite Hlen, (finishAll_track (length rest) c a Hlen), Hp, last_last.
    reflexivity.
  - destruct (completeTransitions_fields c) as (Hc & Hi & _).
    unfold offset. rewrite Hc, Hi. reflexivity.
Qed.

(** X17: once the transition of a navigation call has completed, the track
    rests at minus the new index times the pitch of the items
    ([itemWidth + itemGap]), whatever transform it had before, also after a
    drag has moved it. *)
Theorem track_rests_at_index :
  forall c i,
    isAnimating c = false ->
    let pitch := itemWidth (config c) + itemGap (config c) in
    trackTransform (nextDone c) = - IZR (currentIndex (nextDone c)) * pitch /\
    trackTransform (prevDone c) = - IZR (currentIndex (prevDone c)) * pitch /\
    (i <> currentIndex c ->
     trackTransform (completeTransitions (goTo i c)) =
       - IZR (currentIndex (completeTransitions (goTo i c))) * pitch).
Proof.
  intros c i Hidle pitch. unfold pitch.
  assert (Hnav : forall j,
            let c' := resetAutoplay (updateCarousel true (set_currentIndex j c)) in
            trackTransform (completeTransitions c') =
            - IZR (currentIndex (completeTransitions c')) *
              (itemWidth (config c) + itemGap (config c))).
  { intros j c'.
    destruct (completeTransitions_track c' _ _ (navigate_pending j c)) as [Ht Ho].
    fold c' in Ht. rewrite Ht, <- Ho. unfold offset.
    destruct (completeTransitions_fields c') as (Hc & _).
    destruct (navigate_fields j c) as (Hc' & _). fold c' in Hc'.
    rewrite Hc, Hc'. reflexivity. }
  split; [|split].
  - unfold nextDone, next. rewrite Hidle.
    cbn [currentIndex totalItems config set_currentIndex].
    destruct (currentIndex c + 1 >=? Z.of_nat (totalItems c))%Z.
    + pose proof (Hnav (if loop (config c) then 0 else Z.of_nat (totalItems c) - 1)%Z) as H.
      exact H.
    + apply Hnav.
  - unfold prevDone, prev. rewrite Hidle.
    cbn [currentIndex totalItems config set_currentIndex].
    destruct (currentIndex c - 1 <? 0)%Z.
    + pose proof (Hnav (if loop (config c) then Z.of_nat (totalItems c) - 1 else 0)%Z) as H.
      exact H.
    + apply Hnav.
  - intros Hne. unfold goTo. rewrite Hidle.
    apply Z.eqb_neq in Hne. rewrite Hne. cbn [orb]. apply Hnav.
Qed.

Lemma dragged_idle d c :
  isAnimating c = false -> isAnimating (dragged d c) = false.
Proof.
  intros Hidle.
  destruct c as [cfg i n a t dr sx cx dd tt pd nt]. cbn in Hidle. subst a.
  unfold dragged, handleDragMove, handleDragStart, stopAutoplay, outcome. cbn.
  destruct t; reflexivity.
Qed.

Lemma track_rests_at_index_witness :
  trackTransform (nextDone (dragged 30 (create carouselConfig 5))) =
  - IZR (currentIndex (nextDone (dragged 30 (create carouselConfig 5)))) *
    (itemWidth carouselConfig + itemGap carouselConfig).
Proof.
  destruct (dragged_fields 30 (create carouselConfig 5) eq_refl) as (_ & _ & Hc & _).
  assert (Hidle : isAnimating (dragged 30 (create carouselConfig 5)) = false)
    by (apply dragged_idle; reflexivity).
  destruct (track_rests_at_index (dragged 30 (create carouselConfig 5)) 0 Hidle)
    as (H & _).
  rewrite Hc in H. exact H.
Defined.

(** *** Sessions *)

(** Unfolds the listeners on a controller given by its fields and splits on
    every test they make. *)
Ltac listener_cases :=
  unfold handle, keydown, autoplayTick, mouseenter, mouseleave, outcome,
    handleDragStart, handleDragMove, handleDragEnd, next, prev, goTo, onfinish,
    resetAutoplay, startAutoplay, stopAutoplay, updateCarousel;
  cbn;
  repeat (match goal with
          | |- context [if ?b then _ else _] => destruct b eqn:?
          | |- context [match ?t with _ => _ end] => destruct t eqn:?
          end; cbn in *).

Ltac index_tests :=
  repeat match goal with
         | H : (_ <? _)%Z = true |- _ => apply Z.ltb_lt in H
         | H : (_ <? _)%Z = false |- _ => apply Z.ltb_ge in H
         | H : (_ >=? _)%Z = true |- _ => apply Z.geb_le in H
         | H : (_ >=? _)%Z = false |- _ => rewrite Z.geb_leb in H; apply Z.leb_gt in H
         | H : (_ =? _)%Z = true |- _ => apply Z.eqb_eq in H
         | H : (_ =? _)%Z = false |- _ => apply Z.eqb_neq in H
         end.

Lemma handle_config_items ev c :
  config (handle ev c) = config c /\ totalItems (handle ev c) = totalItems c.
Proof.
  destruct c as [cfg i n a t dr sx cx dd tt pd nt].
  destruct ev as [| |j|e|e|e|v k| | | |]; try destruct k;
    listener_cases; split; reflexivity.
Qed.

Lemma handle_valid ev c : validIndex c -> validIndex (handle ev c).
Proof.
  destruct c as [cfg i n a t dr sx cx dd tt pd nt].
  unfold validIndex. cbn. intros Hv.
  destruct ev as [| |j|e|e|e|v k| | | |]; try destruct k;
    listener_cases; index_tests; lia.
Qed.

Lemma app_not_nil (A : Type) (l : list A) (a : A) : l ++ [a] <> [].
Proof. intros H. apply app_eq_nil in H as [_ H]. discriminate. Qed.

Lemma handle_wellFormed ev c : wellFormed c -> wellFormed (handle ev c).
Proof.
  destruct c as [cfg i n a t dr sx cx dd tt pd nt].
  unfold wellFormed. cbn. intros (Ha & Hd & Ht & Hh).
  destruct ev as [| |j|e|e|e|v k| | | |]; try destruct k;
    listener_cases;
    repeat split; intros;
    try discriminate; try congruence; try (apply app_not_nil);
    try (apply Ha; congruence); try (apply Hd; congruence);
    try (apply Ht; congruence);
    try (match goal with
         | H : Some _ = Some _ |- _ => injection H as <-; lia
         end);
    try (match goal with
         | H : Some ?a = Some ?b |- (?b < S _)%nat =>
             injection H as <-; assert (a < nt)%nat by (apply Hh; reflexivity); lia
         end);
    try (apply PeanoNat.Nat.lt_lt_succ_r; apply Hh; congruence);
    try (apply Hh; congruence);
    try (destruct dr; discriminate).
Qed.

Lemma create_wellFormed cfg n : wellFormed (create cfg n).
Proof.
  unfold wellFormed, create, updateCarousel, startAutoplay, stopAutoplay. cbn.
  destruct (autoplay cfg) eqn:E; cbn; repeat split; intros;
    try discriminate; try congruence.
  injection H as <-. lia.
Qed.

Lemma run_snoc evs ev c : run (evs ++ [ev]) c = handle ev (run evs c).
Proof. unfold run. rewrite fold_left_app. reflexivity. Qed.

Lemma run_invariant (P : Carousel3D -> Prop) c evs :
  P c -> (forall ev c', P c' -> P (handle ev c')) -> P (run evs c).
Proof.
  intros H0 Hstep. revert c H0.
  induction evs as [|ev evs IH]; intros c H0; [exact H0|].
  cbn. apply IH. apply Hstep. exact H0.
Qed.

(** X18: in a session on a track with at least one item, whatever the
    events and their order, [currentIndex] is always an index of the item
    array, and neither the configuration nor the number of items changes. *)
Theorem session_index_valid :
  forall cfg n evs,
    (0 < n)%nat ->
    validIndex (run evs (create cfg n)) /\
    config (run evs (create cfg n)) = cfg /\
    totalItems (run evs (create cfg n)) = n.
Proof.
  intros cfg n evs Hn.
  apply (run_invariant
           (fun c => validIndex c /\ config c = cfg /\ totalItems c = n)).
  - unfold validIndex, create, updateCarousel, startAutoplay, stopAutoplay. cbn.
    destruct (autoplay cfg); cbn; repeat split; lia.
  - intros ev c' (Hv & Hc & Ht).
    destruct (handle_config_items ev c') as [Hc' Ht'].
    split; [apply handle_valid; exact Hv|]. split; congruence.
Qed.

Lemma session_index_valid_witness :
  validIndex (run [ClickPrev; TransitionEnd; KeyDown true End_; DragStart (pointerAt 3)]
                (create carouselConfig 5)).
Proof.
  apply (session_index_valid carouselConfig 5). lia.
Defined.

(** X19: in every state of a session the animating flag is set only while
    a transition is in flight, so completing the transitions in flight
    always brings the controller back to idle; the drag distance is 0
    whenever no drag is under way; no autoplay timer exists when autoplay is
    not configured; and the handle of the timer is one [setInterval] has
    returned. *)
Theorem session_invariant :
  forall cfg n evs,
    let c := run evs (create cfg n) in
    (isAnimating c = true -> pending c <> []) /\
    isAnimating (completeTransitions c) = false /\
    (isDragging c = false -> dragDistance c = 0) /\
    (autoplay cfg = false -> autoplayTimer c = None) /\
    (forall h, autoplayTimer c = Some h -> (h < nextTimer c)%nat).
Proof.
  intros cfg n evs c.
  assert (Hwf : wellFormed c /\ config c = cfg).
  { apply (run_invariant (fun c => wellFormed c /\ config c = cfg)).
    - split; [apply create_wellFormed|].
      unfold create, updateCarousel, startAutoplay, stopAutoplay. cbn.
      destruct (autoplay cfg); reflexivity.
    - intros ev c' [Hw Hc]. split; [apply handle_wellFormed; exact Hw|].
      rewrite (proj1 (handle_config_items ev c')). exact Hc. }
  destruct Hwf as [(Ha & Hd & Ht & Hh) Hc].
  split; [exact Ha|]. split; [|split; [exact Hd|split; [|exact Hh]]].
  - destruct (completeTransitions_fields c) as (_ & _ & _ & _ & Hfin).
    destruct (pending c) as [|a rest] eqn:E.
    + unfold completeTransitions. rewrite E. cbn.
      destruct (isAnimating c) eqn:Ea; [|reflexivity].
      exfalso. apply Ha; reflexivity.
    + apply Hfin. discriminate.
  - intros Hoff. apply Ht. rewrite Hc. exact Hoff.
Qed.

Lemma session_invariant_witness :
  autoplayTimer (run [ClickNext; MouseEnter; MouseLeave; IntervalTick]
                   (create carouselConfig 5)) = None.
Proof.
  apply (session_invariant carouselConfig 5
           [ClickNext; MouseEnter; MouseLeave; IntervalTick]).
  reflexivity.
Defined.

(** *** Drags *)

Lemma handleDragMove_fields e c :
  isDragging c = true ->
  canPreventDefault e = true ->
  handleDragMove e c = Returned (outcome (handleDragMove e c)) /\
  dragDistance (outcome (handleDragMove e c)) = pointerX e - startX c /\
  trackTransform (outcome (handleDragMove e c)) = offset c + (pointerX e - startX c).
Proof.
  intros Hd He. unfold handleDragMove. rewrite Hd, He. cbn. repeat split.
Qed.

Lemma handleDragMove_kept e c :
  isDragging (outcome (handleDragMove e c)) = isDragging c /\
  startX (outcome (handleDragMove e c)) = startX c /\
  config (outcome (handleDragMove e c)) = config c /\
  currentIndex (outcome (handleDragMove e c)) = currentIndex c /\
  totalItems (outcome (handleDragMove e c)) = totalItems c /\
  isAnimating (outcome (handleDragMove e c)) = isAnimating c /\
  pending (outcome (handleDragMove e c)) = pending c /\
  autoplayTimer (outcome (handleDragMove e c)) = autoplayTimer c.
Proof.
  unfold handleDragMove.
  destruct (negb (isDragging c)); [repeat split|].
  destruct (negb (canPreventDefault e)); repeat split.
Qed.

Lemma handleDragMove_touch e c :
  isDragging c = true ->
  canPreventDefault e = false ->
  handleDragMove e c = Threw c.
Proof.
  intros Hd He. unfold handleDragMove. rewrite Hd, He. reflexivity.
Qed.

Lemma dragMoves_snoc es e c :
  dragMoves (es ++ [e]) c = outcome (handleDragMove e (dragMoves es c)).
Proof. unfold dragMoves. rewrite fold_left_app. reflexivity. Qed.

Lemma dragMoves_fields es : forall c,
  isDragging (dragMoves es c) = isDragging c /\
  startX (dragMoves es c) = startX c /\
  config (dragMoves es c) = config c /\
  currentIndex (dragMoves es c) = currentIndex c /\
  totalItems (dragMoves es c) = totalItems c /\
  isAnimating (dragMoves es c) = isAnimating c /\
  pending (dragMoves es c) = pending c /\
  autoplayTimer (dragMoves es c) = autoplayTimer c.
Proof.
  induction es as [|e es IH]; intros c; [repeat split|].
  cbn. destruct (handleDragMove_kept e c) as (H1 & H2 & H3 & H4 & H5 & H6 & H7 & H8).
  destruct (IH (outcome (handleDragMove e c))) as (I1 & I2 & I3 & I4 & I5 & I6 & I7 & I8).
  fold (dragMoves es (outcome (handleDragMove e c))).
  repeat split; congruence.
Qed.

Lemma dragMoves_touch es : forall c,
  Forall (fun e => canPreventDefault e = false) es ->
  dragMoves es c = c.
Proof.
  induction es as [|e es IH]; intros c Hall; [reflexivity|].
  inversion Hall as [|? ? He Hes]; subst. cbn.
  assert (E : outcome (handleDragMove e c) = c).
  { unfold handleDragMove. destruct (negb (isDragging c)); [reflexivity|].
    rewrite He. reflexivity. }
  rewrite E. apply IH. exact Hes.
Qed.

Lemma handleDragStart_fields e c :
  isAnimating c = false ->
  isDragging (handleDragStart e c) = true /\
  startX (handleDragStart e c) = pointerX e /\
  dragDistance (handleDragStart e c) = dragDistance c /\
  trackTransform (handleDragStart e c) = trackTransform c /\
  config (handleDragStart e c) = config c /\
  currentIndex (handleDragStart e c) = currentIndex c /\
  totalItems (handleDragStart e c) = totalItems c /\
  isAnimating (handleDragStart e c) = false /\
  pending (handleDragStart e c) = pending c /\
  autoplayTimer (handleDragStart e c) = None.
Proof.
  intros Hidle.
  destruct c as [cfg i n a t dr sx cx dd tt pd nt]. cbn in Hidle. subst a.
  unfold handleDragStart, stopAutoplay. cbn. destruct t; cbn; repeat split.
Qed.

(** X20: during a mouse drag the track follows the pointer one to one.
    After a press on an idle controller and any number of moves, the last of
    them a mouse move, the drag distance is the position of that move minus
    the position of the press, whatever the moves in between, the track is at
    the resting offset of the current item plus that distance, and the index
    has not changed.  A move outside a drag returns and changes nothing.  A
    move given a touch point during a drag throws, at [e.preventDefault()],
    and changes nothing either. *)
Theorem drag_follows_pointer :
  forall c e0 es e1,
    (isAnimating c = false ->
     canPreventDefault e1 = true ->
     let c' := dragMoves (es ++ [e1]) (handleDragStart e0 c) in
     isDragging c' = true /\
     dragDistance c' = pointerX e1 - pointerX e0 /\
     trackTransform c' = offset c + (pointerX e1 - pointerX e0) /\
     currentIndex c' = currentIndex c /\
     isAnimating c' = false /\
     pending c' = pending c) /\
    (isDragging c = false ->
     handleDragMove e1 c = Returned c /\ dragMoves es c = c) /\
    (isDragging c = true ->
     canPreventDefault e1 = false ->
     handleDragMove e1 c = Threw c).
Proof.
  intros c e0 es e1. split; [|split].
  - intros Hidle He1 c'. unfold c'. rewrite dragMoves_snoc.
    destruct (handleDragStart_fields e0 c Hidle)
      as (S1 & S2 & _ & _ & S5 & S6 & _ & S8 & S9 & _).
    destruct (dragMoves_fields es (handleDragStart e0 c))
      as (M1 & M2 & M3 & M4 & _ & M5 & M6 & _).
    rewrite S1 in M1.
    destruct (handleDragMove_fields e1 _ M1 He1) as (_ & H3 & H4).
    destruct (handleDragMove_kept e1 (dragMoves es (handleDragStart e0 c)))
      as (K1 & _ & _ & K4 & _ & K6 & K7 & _).
    rewrite H3, H4, K1, K4, K6, K7, M1, M2, M4, M5, M6, S2, S6, S8, S9.
    repeat split; auto.
    unfold offset. rewrite M3, M4, S5, S6. reflexivity.
  - intros Hd. split.
    + unfold handleDragMove. rewrite Hd. reflexivity.
    + induction es as [|e es IH]; [reflexivity|].
      cbn. unfold handleDragMove at 2. rewrite Hd. cbn. exact IH.
  - apply handleDragMove_touch.
Qed.

Lemma drag_follows_pointer_witness :
  dragDistance (dragMoves ([pointerAt 7; touchAt 400] ++ [pointerAt 130])
                  (handleDragStart (pointerAt 100) (create carouselConfig 5))) =
  pointerX (pointerAt 130) - pointerX (pointerAt 100).
Proof.
  destruct (drag_follows_pointer (create carouselConfig 5) (pointerAt 100)
              [pointerAt 7; touchAt 400] (pointerAt 130)) as [H _].
  apply (H eq_refl eq_refl).
Defined.

Lemma release_small c e :
  isDragging c = true ->
  Rabs (dragDistance c) <= dragThreshold (config c) ->
  currentIndex (handleDragEnd e c) = currentIndex c /\
  isAnimating (handleDragEnd e c) = true /\
  isDragging (handleDragEnd e c) = false /\
  dragDistance (handleDragEnd e c) = 0 /\
  pending (handleDragEnd e c) =
    pending c ++ [ {| fromX := trackTransform c; toX := offset c |} ].
Proof.
  intros Hd Hsmall.
  destruct c as [cfg i n a t dr sx cx dd tt pd nt]. cbn in Hd, Hsmall. subst dr.
  unfold handleDragEnd. cbn.
  rewrite (gtb_false _ _ Hsmall). cbn.
  unfold startAutoplay, stopAutoplay, updateCarousel. cbn.
  destruct (autoplay cfg); cbn; [destruct t; cbn|]; repeat split.
Qed.

Lemma release_track c e :
  isDragging c = true ->
  trackTransform (handleDragEnd e c) = trackTransform c.
Proof.
  intros Hd.
  destruct c as [cfg i n a t dr sx cx dd tt pd nt]. cbn in Hd. subst dr.
  listener_cases; reflexivity.
Qed.

(** X21: a press and a release on the track with no move in between do not
    navigate, provided the threshold is not negative: the index stays, but
    the release still starts the snap-back transition, so the controller is
    animating after a plain click. *)
Theorem click_starts_snap_back :
  forall c e0 e1,
    isAnimating c = false ->
    dragDistance c = 0 ->
    0 <= dragThreshold (config c) ->
    let c' := handleDragEnd e1 (handleDragStart e0 c) in
    currentIndex c' = currentIndex c /\
    isDragging c' = false /\
    isAnimating c' = true /\
    pending c' = pending c ++ [ {| fromX := trackTransform c; toX := offset c |} ].
Proof.
  intros c e0 e1 Hidle Hdd Ht c'.
  destruct (handleDragStart_fields e0 c Hidle)
    as (S1 & _ & S3 & S4 & S5 & S6 & _ & _ & S9 & _).
  destruct (release_small (handleDragStart e0 c) e1 S1) as (R1 & R2 & R3 & _ & R5).
  { rewrite S3, S5, Hdd, Rabs_R0. exact Ht. }
  unfold c'. rewrite R1, R2, R3, R5, S4, S6, S9.
  repeat split. unfold offset. rewrite S5, S6. reflexivity.
Qed.

Lemma click_starts_snap_back_witness :
  currentIndex (handleDragEnd (pointerAt 100)
                  (handleDragStart (pointerAt 100) (create carouselConfig 5))) = 0%Z /\
  isAnimating (handleDragEnd (pointerAt 100)
                 (handleDragStart (pointerAt 100) (create carouselConfig 5))) = true.
Proof.
  destruct (click_starts_snap_back (create carouselConfig 5) (pointerAt 100) (pointerAt 100))
    as (H1 & _ & H3 & _).
  - reflexivity.
  - reflexivity.
  - simpl. lra.
  - split; [exact H1 | exact H3].
Defined.

(** X30: a swipe on a touch screen never navigates.  The touch listeners
    hand the handlers a touch point; every move of the drag throws before
    the drag distance is written, so at the release the distance is still 0:
    the index stays and only the snap-back transition starts, however far
    the finger went. *)
Theorem touch_swipe_never_navigates :
  forall c e0 es e1,
    isAnimating c = false ->
    dragDistance c = 0 ->
    0 <= dragThreshold (config c) ->
    Forall (fun e => canPreventDefault e = false) es ->
    let c' := handleDragEnd e1 (dragMoves es (handleDragStart e0 c)) in
    dragMoves es (handleDragStart e0 c) = handleDragStart e0 c /\
    currentIndex c' = currentIndex c /\
    trackTransform c' = trackTransform c /\
    isDragging c' = false /\
    isAnimating c' = true /\
    pending c' = pending c ++ [ {| fromX := trackTransform c; toX := offset c |} ].
Proof.
  intros c e0 es e1 Hidle Hdd Ht Hall c'.
  pose proof (dragMoves_touch es (handleDragStart e0 c) Hall) as Hm.
  unfold c'. rewrite Hm.
  destruct (handleDragStart_fields e0 c Hidle)
    as (S1 & _ & S3 & S4 & S5 & S6 & _ & _ & S9 & _).
  destruct (release_small (handleDragStart e0 c) e1 S1) as (R1 & R2 & R3 & _ & R5).
  { rewrite S3, S5, Hdd, Rabs_R0. exact Ht. }
  split; [reflexivity|].
  rewrite R1, R2, R3, R5, S4, S6, S9.
  repeat split.
  - rewrite <- S4. apply release_track. exact S1.
  - unfold offset. rewrite S5, S6. reflexivity.
Qed.

Lemma touch_swipe_never_navigates_witness :
  currentIndex (handleDragEnd (touchAt 10)
     (dragMoves [touchAt 250; touchAt 120; touchAt 10]
        (handleDragStart (touchAt 300) (create carouselConfig 5)))) = 0%Z.
Proof.
  destruct (touch_swipe_never_navigates (create carouselConfig 5) (touchAt 300)
              [touchAt 250; touchAt 120; touchAt 10] (touchAt 10))
    as (_ & H & _).
  - reflexivity.
  - reflexivity.
  - simpl. lra.
  - repeat constructor.
  - exact H.
Defined.

Lemma next_drag_fields c :
  isDragging (next c) = isDragging c /\
  dragDistance (next c) = dragDistance c /\
  trackTransform (next c) = trackTransform c.
Proof.
  destruct c as [cfg i n a t dr sx cx dd tt pd nt].
  unfold next, resetAutoplay, startAutoplay, stopAutoplay, updateCarousel. cbn.
  destruct a; cbn; [repeat split|].
  destruct (i + 1 >=? Z.of_nat n)%Z; cbn;
    destruct (autoplay cfg); cbn; try destruct t; cbn; repeat split.
Qed.

(** X22: the release of a drag is not guarded by the animating flag.  When
    [next()] runs during a drag (a key, a button) and the pointer is then
    released without a move, two transitions are in flight; the end of the
    first clears the flag while the second is still running, so navigation
    is accepted again before the track has come to rest. *)
Theorem release_overlaps_transition :
  forall c e0 e1,
    isAnimating c = false ->
    pending c = [] ->
    dragDistance c = 0 ->
    0 <= dragThreshold (config c) ->
    let c' := handleDragEnd e1 (next (handleDragStart e0 c)) in
    length (pending c') = 2%nat /\
    isAnimating c' = true /\
    currentIndex c' = currentIndex (next c) /\
    isAnimating (onfinish c') = false /\
    length (pending (onfinish c')) = 1%nat.
Proof.
  intros c e0 e1 Hidle Hp Hdd Ht c'.
  destruct (handleDragStart_fields e0 c Hidle)
    as (S1 & _ & S3 & _ & S5 & S6 & S7 & S8 & S9 & _).
  set (s := handleDragStart e0 c) in *.
  destruct (next_drag_fields s) as (N1 & N2 & _).
  destruct (next_index s S8) as (N3 & N4 & _ & N6 & N7).
  assert (N5 : length (pending (next s)) = 1%nat).
  { unfold next. rewrite S8.
    destruct (currentIndex (set_currentIndex (currentIndex s + 1) s) >=?
              Z.of_nat (totalItems (set_currentIndex (currentIndex s + 1) s)))%Z;
      rewrite navigate_pending; cbn [pending set_currentIndex];
      rewrite S9, Hp; reflexivity. }
  destruct (release_small (next s) e1) as (R1 & R2 & _ & _ & R5).
  { rewrite N1. exact S1. }
  { rewrite N2, N7, S3, S5, Hdd, Rabs_R0. exact Ht. }
  fold c' in R1, R2, R5.
  assert (Hlen : length (pending c') = 2%nat).
  { rewrite R5, length_app, N5. reflexivity. }
  assert (Hidx : currentIndex c' = currentIndex (next c)).
  { rewrite R1, N3. destruct (next_index c Hidle) as (-> & _).
    rewrite S5, S6, S7. reflexivity. }
  destruct (onfinish_fields c') as (_ & _ & _ & O4 & O5).
  repeat split; auto.
  - apply O5. intros E. rewrite E in Hlen. discriminate.
  - rewrite O4. destruct (pending c') as [|a rest]; [discriminate|].
    cbn in *. lia.
Qed.

Lemma release_overlaps_transition_witness :
  isAnimating (onfinish (handleDragEnd (pointerAt 100)
     (next (handleDragStart (pointerAt 100) (create carouselConfig 5))))) = false /\
  length (pending (onfinish (handleDragEnd (pointerAt 100)
     (next (handleDragStart (pointerAt 100) (create carouselConfig 5)))))) = 1%nat.
Proof.
  destruct (release_overlaps_transition (create carouselConfig 5)
              (pointerAt 100) (pointerAt 100)) as (_ & _ & _ & H4 & H5).
  - reflexivity.
  - reflexivity.
  - reflexivity.
  - simpl. lra.
  - split; [exact H4 | exact H5].
Defined.

(** *** Autoplay *)

Lemma startAutoplay_timer c :
  autoplayTimer (startAutoplay c) = Some (nextTimer c) /\
  nextTimer (startAutoplay c) = S (nextTimer c).
Proof.
  destruct c as [cfg i n a t dr sx cx dd tt pd nt].
  unfold startAutoplay, stopAutoplay. cbn. destruct t; cbn; split; reflexivity.
Qed.

Lemma navigation_timer c i :
  autoplay (config c) = true ->
  isAnimating c = false ->
  autoplayTimer (next c) = Some (nextTimer c) /\
  autoplayTimer (prev c) = Some (nextTimer c) /\
  (i <> currentIndex c -> autoplayTimer (goTo i c) = Some (nextTimer c)).
Proof.
  destruct c as [cfg j n a t dr sx cx dd tt pd nt]. cbn. intros Hon ->.
  unfold next, prev, goTo, resetAutoplay, startAutoplay, stopAutoplay, updateCarousel.
  cbn. rewrite ?Hon. split; [|split].
  - destruct (j + 1 >=? Z.of_nat n)%Z; cbn; rewrite ?Hon; destruct t; reflexivity.
  - destruct (j - 1 <? 0)%Z; cbn; rewrite ?Hon; destruct t; reflexivity.
  - intros Hne. apply Z.eqb_neq in Hne. rewrite Hne. cbn. rewrite ?Hon.
    destruct t; reflexivity.
Qed.

Lemma handleDragEnd_timer e c :
  autoplay (config c) = true ->
  isDragging c = true ->
  autoplayTimer (handleDragEnd e c) <> None.
Proof.
  destruct c as [cfg j n a t dr sx cx dd tt pd nt]. cbn. intros Hon ->.
  listener_cases; congruence.
Qed.

(** X23: with autoplay configured, every navigation call that is not ignored
    restarts the interval: the timer gets a handle never used before.  A
    press stops the timer and the release starts it again; the pointer
    entering the container stops it and leaving starts it again.  With
    autoplay not configured, leaving the container starts nothing. *)
Theorem autoplay_restarts :
  forall c i e,
    (autoplay (config c) = true ->
     isAnimating c = false ->
     autoplayTimer (next c) = Some (nextTimer c) /\
     autoplayTimer (prev c) = Some (nextTimer c) /\
     (i <> currentIndex c -> autoplayTimer (goTo i c) = Some (nextTimer c)) /\
     autoplayTimer (handleDragStart e c) = None /\
     (isDragging c = true -> autoplayTimer (handleDragEnd e c) <> None)) /\
    autoplayTimer (mouseenter c) = None /\
    (autoplay (config c) = true ->
     autoplayTimer (mouseleave (mouseenter c)) = Some (nextTimer c)) /\
    (autoplay (config c) = false ->
     autoplayTimer (mouseleave (mouseenter c)) = None).
Proof.
  intros c i e. split; [|split; [|split]].
  - intros Hon Hidle.
    destruct (navigation_timer c i Hon Hidle) as (Hn & Hp & Hg).
    split; [exact Hn|]. split; [exact Hp|]. split; [exact Hg|]. split.
    + apply handleDragStart_fields. exact Hidle.
    + intros Hd. apply handleDragEnd_timer; assumption.
  - destruct c as [cfg j n a t dr sx cx dd tt pd nt].
    unfold mouseenter, stopAutoplay. cbn. destruct t; reflexivity.
  - intros Hon.
    destruct c as [cfg j n a t dr sx cx dd tt pd nt]. cbn in Hon.
    unfold mouseleave, mouseenter, startAutoplay, stopAutoplay. cbn.
    destruct t; cbn; rewrite Hon; reflexivity.
  - intros Hoff.
    destruct c as [cfg j n a t dr sx cx dd tt pd nt]. cbn in Hoff.
    unfold mouseleave, mouseenter, startAutoplay, stopAutoplay. cbn.
    destruct t; cbn; rewrite Hoff; reflexivity.
Qed.

Lemma autoplay_restarts_witness :
  autoplayTimer (next (create autoplayConfig 5)) =
    Some (nextTimer (create autoplayConfig 5)) /\
  autoplayTimer (mouseleave (mouseenter (create carouselConfig 5))) = None.
Proof.
  destruct (autoplay_restarts (create autoplayConfig 5) 0 (pointerAt 0))
    as (H1 & _).
  destruct (autoplay_restarts (create carouselConfig 5) 0 (pointerAt 0))
    as (_ & _ & _ & H4).
  split.
  - apply (H1 eq_refl eq_refl).
  - apply (H4 eq_refl).
Defined.

(** *** Input while a transition is in flight, and the keyboard *)

(** X24: while the animating flag is set, the buttons, [goTo], a press on
    the track, every key and the autoplay tick all leave the controller
    exactly as it is. *)
Theorem busy_controller_ignores_input :
  forall c,
    isAnimating c = true ->
    handle ClickPrev c = c /\
    handle ClickNext c = c /\
    (forall i, handle (CallGoTo i) c = c) /\
    (forall e, handle (DragStart e) c = c) /\
    (forall inView k, handle (KeyDown inView k) c = c) /\
    handle IntervalTick c = c.
Proof.
  intros c Hbusy.
  destruct c as [cfg j n a t dr sx cx dd tt pd nt]. cbn in Hbusy. subst a.
  repeat split; intros; try destruct k; listener_cases; reflexivity.
Qed.

Lemma busy_controller_ignores_input_witness :
  handle (KeyDown true End_) (next (create carouselConfig 5)) =
  next (create carouselConfig 5).
Proof.
  destruct (busy_controller_ignores_input (next (create carouselConfig 5)) eq_refl)
    as (_ & _ & _ & _ & H & _).
  apply H.
Defined.

(** X25: the keyboard, on an idle controller with a valid index and the
    container in view: Home goes to item 0 and End to the last item, the
    arrows are [prev] and [next], any other key does nothing; out of view no
    key does anything. *)
Theorem keyboard_navigation :
  forall c,
    isAnimating c = false ->
    validIndex c ->
    currentIndex (keydown true Home c) = 0%Z /\
    currentIndex (keydown true End_ c) = (Z.of_nat (totalItems c) - 1)%Z /\
    keydown true ArrowLeft c = prev c /\
    keydown true ArrowRight c = next c /\
    keydown true OtherKey c = c /\
    (forall k, keydown false k c = c).
Proof.
  intros c Hidle Hv. unfold validIndex in Hv.
  split; [|split; [|repeat split]].
  - cbn [keydown negb]. destruct (Z.eq_dec 0 (currentIndex c)) as [E | E].
    + rewrite E at 1. rewrite goTo_same. symmetry. exact E.
    + destruct (goTo_index 0 c Hidle E) as (-> & _). lia.
  - cbn [keydown negb].
    destruct (Z.eq_dec (Z.of_nat (totalItems c) - 1) (currentIndex c)) as [E | E].
    + rewrite E at 1. rewrite goTo_same. symmetry. exact E.
    + destruct (goTo_index _ c Hidle E) as (-> & _). lia.
Qed.

Lemma keyboard_navigation_witness :
  currentIndex (keydown true End_ (create carouselConfig 5)) = 4%Z.
Proof.
  apply (keyboard_navigation (create carouselConfig 5) eq_refl).
  unfold validIndex. simpl. lia.
Defined.

(** *** What is shown *)

Lemma nth_updateItemStates c k :
  nth_error (updateItemStates c) k =
  if (k <? totalItems c)%nat then Some (itemStyle (currentIndex c) (Z.of_nat k)) else None.
Proof.
  unfold updateItemStates. rewrite nth_error_map, nth_error_seq.
  destruct (k <? totalItems c)%nat; reflexivity.
Qed.

(** X26: [updateItemStates] styles every item of the track; the item at
    [currentIndex], and no other, is marked active, with no rotation, scale
    1, opacity 1 and z-index 100, and the items next to it are the adjacent
    ones.  When [currentIndex] is not an index of the track no item is
    active. *)
Theorem one_active_item :
  forall c,
    length (updateItemStates c) = totalItems c /\
    (forall k st,
       nth_error (updateItemStates c) k = Some st ->
       (itemClass st = active <-> Z.of_nat k = currentIndex c) /\
       (itemClass st = adjacent <-> Z.abs (Z.of_nat k - currentIndex c) = 1%Z)) /\
    (validIndex c ->
     nth_error (updateItemStates c) (Z.to_nat (currentIndex c)) =
       Some {| itemClass := active; rotateY := 0; scale := 1;
               itemOpacity := 1; zIndex := 100 |}) /\
    (~ validIndex c ->
     forall st, In st (updateItemStates c) -> itemClass st <> active).
Proof.
  intros c.
  assert (Hclass : forall k st,
            nth_error (updateItemStates c) k = Some st ->
            (k < totalItems c)%nat /\
            (itemClass st = active <-> Z.of_nat k = currentIndex c) /\
            (itemClass st = adjacent <-> Z.abs (Z.of_nat k - currentIndex c) = 1%Z)).
  { intros k st H. rewrite nth_updateItemStates in H.
    destruct (k <? totalItems c)%nat eqn:Hk; [|discriminate].
    apply Nat.ltb_lt in Hk. injection H as <-. split; [exact Hk|].
    unfold itemStyle. cbn [itemClass].
    destruct (Z.of_nat k =? currentIndex c)%Z eqn:E1.
    - apply Z.eqb_eq in E1. split; split; intros; try discriminate; auto; lia.
    - apply Z.eqb_neq in E1.
      destruct (Z.abs (Z.of_nat k - currentIndex c) =? 1)%Z eqn:E2.
      + apply Z.eqb_eq in E2. split; split; intros; try discriminate; auto; lia.
      + apply Z.eqb_neq in E2. split; split; intros; try discriminate; auto; lia. }
  split; [|split; [|split]].
  - unfold updateItemStates. rewrite length_map, length_seq. reflexivity.
  - intros k st H. apply (Hclass k st H).
  - intros Hv. unfold validIndex in Hv. rewrite nth_updateItemStates.
    assert (Hlt : (Z.to_nat (currentIndex c) <? totalItems c)%nat = true)
      by (apply Nat.ltb_lt; lia).
    rewrite Hlt. f_equal. unfold itemStyle.
    rewrite Z2Nat.id by lia.
    rewrite Z.eqb_refl, Z.sub_diag. cbn [Z.abs Z.mul Z.sub Z.opp Z.add].
    f_equal; lra.
  - intros Hnv st Hin Hact. apply In_nth_error in Hin as [k Hk].
    destruct (Hclass k st Hk) as (Hlt & Ha & _).
    apply Ha in Hact. apply Hnv. unfold validIndex. lia.
Qed.

Lemma one_active_item_witness :
  nth_error (updateItemStates (create carouselConfig 5)) 0 =
    Some {| itemClass := active; rotateY := 0; scale := 1;
            itemOpacity := 1; zIndex := 100 |}.
Proof.
  destruct (one_active_item (create carouselConfig 5)) as (_ & _ & H3 & _).
  apply H3. unfold validIndex. simpl. lia.
Defined.

(** X27: the look of an item depends on its distance from the current one
    only, apart from the side it is rotated to: items at the same distance
    get the same scale, opacity and z-index and opposite angles of 15
    degrees per place; a nearer item gets the larger scale, opacity and
    z-index.  The opacity written is positive up to three places away and
    negative from four places on, and the scale reaches 0 at ten places. *)
Theorem item_style_falloff :
  forall cur i j,
    let d k := Z.abs (k - cur) in
    ((d i < d j)%Z ->
     scale (itemStyle cur j) < scale (itemStyle cur i) /\
     itemOpacity (itemStyle cur j) < itemOpacity (itemStyle cur i) /\
     (zIndex (itemStyle cur j) < zIndex (itemStyle cur i))%Z) /\
    (d i = d j ->
     scale (itemStyle cur i) = scale (itemStyle cur j) /\
     itemOpacity (itemStyle cur i) = itemOpacity (itemStyle cur j) /\
     zIndex (itemStyle cur i) = zIndex (itemStyle cur j)) /\
    rotateY (itemStyle cur i) = (15 * (i - cur))%Z /\
    ((d i <= 3)%Z -> 0 < itemOpacity (itemStyle cur i)) /\
    ((4 <= d i)%Z -> itemOpacity (itemStyle cur i) < 0) /\
    ((d i < 10)%Z -> 0 < scale (itemStyle cur i)) /\
    ((10 <= d i)%Z -> scale (itemStyle cur i) <= 0).
Proof.
  intros cur i j d. unfold itemStyle. cbn [scale itemOpacity zIndex rotateY].
  fold (d i) (d j).
  split; [|split; [|split; [|split; [|split; [|split]]]]].
  - intros Hlt. apply IZR_lt in Hlt. repeat split; try lra.
    apply lt_IZR in Hlt. lia.
  - intros ->. repeat split.
  - lia.
  - intros H. apply IZR_le in H. lra.
  - intros H. apply IZR_le in H. lra.
  - intros H. apply IZR_lt in H. lra.
  - intros H. apply IZR_le in H. lra.
Qed.

Lemma item_style_falloff_witness :
  itemOpacity (itemStyle 0 4) < 0 /\ 0 < itemOpacity (itemStyle 0 3).
Proof.
  destruct (item_style_falloff 0 4 3) as (_ & _ & _ & _ & H4 & _).
  destruct (item_style_falloff 0 3 4) as (_ & _ & _ & H3 & _).
  split.
  - apply H4. simpl. lia.
  - apply H3. simpl. lia.
Defined.

(** X28: for a valid index the progress bar gets a width of
    [(currentIndex + 1) / totalItems] of 100 percent, more than 0 and at
    most 100, and exactly 100 on the last item only; a track without items
    gives no width. *)
Theorem progress_range :
  forall c,
    (validIndex c ->
     exists w,
       updateProgress c = Some w /\
       w = IZR (currentIndex c + 1) / IZR (Z.of_nat (totalItems c)) * 100 /\
       0 < w <= 100 /\
       (w = 100 <-> currentIndex c = (Z.of_nat (totalItems c) - 1)%Z)) /\
    (totalItems c = 0%nat -> updateProgress c = None).
Proof.
  intros c. split.
  - intros Hv. unfold validIndex in Hv. unfold updateProgress.
    destruct (totalItems c) as [|m] eqn:En; [lia|].
    rewrite INR_IZR_INZ.
    set (n := Z.of_nat (S m)) in *.
    assert (Hn : 0 < IZR n) by (apply IZR_lt; lia).
    assert (Hi : 0 < IZR (currentIndex c + 1) <= IZR n).
    { split; [apply IZR_lt; lia | apply IZR_le; lia]. }
    set (a := IZR (currentIndex c + 1)) in *.
    assert (Hq : 0 < a / IZR n <= 1).
    { split.
      - apply Rdiv_lt_0_compat; lra.
      - apply (Rmult_le_reg_r (IZR n)); [lra|].
        unfold Rdiv. rewrite Rmult_assoc, Rinv_l by lra. lra. }
    eexists. split; [reflexivity|]. split; [reflexivity|]. split; [lra|].
    split.
    + intros H100.
      assert (Ha : a = IZR n).
      { assert (a / IZR n = 1) by lra.
        apply (Rmult_eq_compat_r (IZR n)) in H.
        unfold Rdiv in H. rewrite Rmult_assoc, Rinv_l in H by lra. lra. }
      unfold a in Ha. apply eq_IZR in Ha. lia.
    + intros Hlast.
      assert (Ha : a = IZR n) by (unfold a; f_equal; lia).
      rewrite Ha. field. lra.
  - intros Hz. unfold updateProgress. rewrite Hz. reflexivity.
Qed.

Lemma progress_range_witness :
  exists w, updateProgress (create carouselConfig 5) = Some w /\ 0 < w <= 100.
Proof.
  destruct (progress_range (create carouselConfig 5)) as [H _].
  destruct H as (w & Hw & _ & Hr & _).
  - unfold validIndex. simpl. lia.
  - exists w. split; [exact Hw | exact Hr].
Defined.

End CarouselMore.
